(** * 60fps-scraper: a shallow embedding of the scraper and its wrappers

    The development follows the three programs of the repository:
    - [scrape60fps.js], the primary scraper (module [Primary]);
    - [api/scrape.js], the serverless function and its HTTP handler
      (module [Serverless]);
    - [scrape60fps-n8n.js], the command line wrapper (module [Cli]).

    JavaScript strings are sequences of UTF-16 code units; the browser is
    an environment whose answers are given by an oracle record. *)

From Stdlib Require Import QArith.QArith_base QArith.Qround DecimalNat.
From stdpp Require Import base numbers list strings gmap sets sorting.
From Equations Require Import Equations.

Set Default Proof Using "Type".

(** ** JavaScript strings *)

Abbreviation jschar := N (only parsing).
Abbreviation jsstring := (list N) (only parsing).

(** An ASCII literal of the source, as code units. *)
Definition lit (s : string) : jsstring :=
  Ascii.N_of_ascii <$> String.list_ascii_of_string s.

(** The case conversions of the JavaScript runtime on strings that hold a
    code unit outside ASCII follow the Unicode tables, which are not part
    of the repository: they are an interface of the development. *)
Class UnicodeCase := {
  unicodeToLowerCase : jsstring → jsstring;
  unicodeToUpperCase : jsstring → jsstring
}.

Module Js.

(** [\s] of a regular expression and the set removed by [trim]:
    WhiteSpace and LineTerminator of ECMAScript. *)
Definition isWhiteSpace (c : N) : bool :=
  ((9 <=? c) && (c <=? 13) || (c =? 32) || (c =? 160) || (c =? 5760)
   || (8192 <=? c) && (c <=? 8202) || (c =? 8232) || (c =? 8233)
   || (c =? 8239) || (c =? 8287) || (c =? 12288) || (c =? 65279))%N.

(** The characters [.] does not match. *)
Definition isLineTerminator (c : N) : bool :=
  ((c =? 10) || (c =? 13) || (c =? 8232) || (c =? 8233))%N.

(** [\d] *)
Definition isDigit (c : N) : bool := ((48 <=? c) && (c <=? 57))%N.
Definition isLower (c : N) : bool := ((97 <=? c) && (c <=? 122))%N.
Definition isUpper (c : N) : bool := ((65 <=? c) && (c <=? 90))%N.
Definition isAscii (c : N) : bool := (c <? 128)%N.

Definition hyphen : N := 45%N.
Definition isHyphen (c : N) : bool := (c =? hyphen)%N.

Definition lowerAscii (c : N) : N := if isUpper c then (c + 32)%N else c.
Definition upperAscii (c : N) : N := if isLower c then (c - 32)%N else c.

Definition toLowerCase `{UnicodeCase} (s : jsstring) : jsstring :=
  if forallb isAscii s then lowerAscii <$> s else unicodeToLowerCase s.

Definition toUpperCase `{UnicodeCase} (s : jsstring) : jsstring :=
  if forallb isAscii s then upperAscii <$> s else unicodeToUpperCase s.

Definition eqb (s t : jsstring) : bool := bool_decide (s = t).

(** [s.startsWith(p)] *)
Fixpoint startsWith (p s : jsstring) : bool :=
  match p, s with
  | [], _ => true
  | _ :: _, [] => false
  | a :: p', b :: s' => (a =? b)%N && startsWith p' s'
  end.

(** [s.includes(p)] *)
Fixpoint includes (p s : jsstring) : bool :=
  startsWith p s ||
  match s with
  | [] => false
  | _ :: s' => includes p s'
  end.

(** [s.substring(a)] and [s.substring(0, b)] *)
Definition substringFrom (a : nat) (s : jsstring) : jsstring := drop a s.
Definition substringTo (b : nat) (s : jsstring) : jsstring := take b s.

(** [s.charAt(0)] and [s.slice(1)] *)
Definition charAt0 (s : jsstring) : jsstring := take 1 s.
Definition slice1 (s : jsstring) : jsstring := drop 1 s.

Definition dropWhile (p : N → bool) : jsstring → jsstring :=
  fix go s :=
    match s with
    | [] => []
    | c :: s' => if p c then go s' else s
    end.

Definition dropWhileEnd (p : N → bool) (s : jsstring) : jsstring :=
  reverse (dropWhile p (reverse s)).

(** [s.trim()] *)
Definition trim (s : jsstring) : jsstring :=
  dropWhileEnd isWhiteSpace (dropWhile isWhiteSpace s).

(** [s.replace(/\s+$/, '')] *)
Definition stripTrailingSpace (s : jsstring) : jsstring :=
  dropWhileEnd isWhiteSpace s.

(** [s.replace(/\s+\d+$/, '')]: the leftmost match is the longest
    suffix made of a run of white space followed by a run of digits,
    both non-empty. *)
Definition stripTrailingNumber (s : jsstring) : jsstring :=
  let r := reverse s in
  let r1 := dropWhile isDigit r in
  let r2 := dropWhile isWhiteSpace r1 in
  if bool_decide (length r1 < length r) && bool_decide (length r2 < length r1)
  then reverse r2 else s.

(** [s.replace(/\?.*$/, '')]: cut at the first question mark that has
    no line terminator after it. *)
Fixpoint stripQuery (s : jsstring) : jsstring :=
  match s with
  | [] => []
  | c :: s' =>
      if (c =? 63)%N && forallb (λ d, negb (isLineTerminator d)) s'
      then [] else c :: stripQuery s'
  end.

(** [s.replace(/[^a-z0-9\s-]/g, '')] *)
Definition isSlugInput (c : N) : bool :=
  isLower c || isDigit c || isWhiteSpace c || isHyphen c.
Definition removeSpecial (s : jsstring) : jsstring := filter (λ c, isSlugInput c = true) s.

(** [s.replace(/C+/g, '-')] for a character class [C]: every maximal run
    of the class becomes one hyphen. [inrun] says that the previous
    character belonged to the run being replaced. *)
Fixpoint replaceRuns (p : N → bool) (inrun : bool) (s : jsstring) : jsstring :=
  match s with
  | [] => []
  | c :: s' =>
      if p c then
        if inrun then replaceRuns p true s' else hyphen :: replaceRuns p true s'
      else c :: replaceRuns p false s'
  end.

(** Without its last code unit when that is a hyphen. *)
Fixpoint dropLast1 (s : jsstring) : jsstring :=
  match s with
  | [] => []
  | c :: s' =>
      match s' with
      | [] => if isHyphen c then [] else [c]
      | _ :: _ => c :: dropLast1 s'
      end
  end.

(** [s.replace(/^-|-$/g, '')]: one hyphen at the start and, in what
    follows it, one hyphen at the end. *)
Definition trimHyphen (s : jsstring) : jsstring :=
  match s with
  | c :: s' => if isHyphen c then dropLast1 s' else dropLast1 s
  | [] => []
  end.

(** [s.split(sep)] for a non-empty separator. [skip] counts the code
    units of a separator that was just matched and remain to be passed;
    [acc] is the current piece, reversed. *)
Fixpoint splitGo (sep : jsstring) (skip : nat) (acc : jsstring) (s : jsstring)
  : list jsstring :=
  match s with
  | [] => [reverse acc]
  | c :: s' =>
      match skip with
      | S k => splitGo sep k acc s'
      | O =>
          if startsWith sep s
          then reverse acc :: splitGo sep (length sep - 1) [] s'
          else splitGo sep 0 (c :: acc) s'
      end
  end.

Definition split (sep s : jsstring) : list jsstring := splitGo sep 0 [] s.

(** [pieces.join(sep)] *)
Fixpoint join (sep : jsstring) (pieces : list jsstring) : jsstring :=
  match pieces with
  | [] => []
  | [p] => p
  | p :: rest => p ++ sep ++ join sep rest
  end.

(** Decimal digits of a number, most significant first, as in a
    template literal. *)
Fixpoint digitsOfUint (d : Decimal.uint) : jsstring :=
  match d with
  | Decimal.Nil => []
  | Decimal.D0 d => 48%N :: digitsOfUint d
  | Decimal.D1 d => 49%N :: digitsOfUint d
  | Decimal.D2 d => 50%N :: digitsOfUint d
  | Decimal.D3 d => 51%N :: digitsOfUint d
  | Decimal.D4 d => 52%N :: digitsOfUint d
  | Decimal.D5 d => 53%N :: digitsOfUint d
  | Decimal.D6 d => 54%N :: digitsOfUint d
  | Decimal.D7 d => 55%N :: digitsOfUint d
  | Decimal.D8 d => 56%N :: digitsOfUint d
  | Decimal.D9 d => 57%N :: digitsOfUint d
  end.

Definition decimal (n : nat) : jsstring := digitsOfUint (Nat.to_uint n).

(** Truthiness of a value that is a string, [null] or [undefined]. *)
Definition truthy (v : option jsstring) : bool :=
  match v with
  | Some (_ :: _) => true
  | _ => false
  end.

(** [a || b] on such values, where [b] is a string. *)
Definition orElse (v : option jsstring) (d : jsstring) : jsstring :=
  match v with
  | Some (c :: s) => c :: s
  | _ => d
  end.

End Js.

(** ** The page as the extractor sees it *)

(** An [a[href]] element: its [href] attribute and its [textContent]. *)
Record Anchor := { href : jsstring; linkText : jsstring }.

(** What the three [querySelectorAll] calls of the ancestor walk return
    on one element, each in document order: the [textContent] of the
    headings, that of the [p], [span] and [div] elements, and the
    anchors. *)
Record Element := {
  headings : list jsstring;
  textElements : list jsstring;
  links : list Anchor
}.

(** A [video] element: the [src] attribute of its first [source]
    descendant ([None]: no such element; [Some None]: no attribute), its
    own [src] and [data-src] attributes, the element itself and its
    [parentElement] chain, nearest first. *)
Record Video := {
  source : option (option jsstring);
  src : option jsstring;
  dataSrc : option jsstring;
  self : Element;
  ancestors : list Element
}.

(** A record of the result list. The fallback records of the primary
    scraper carry no title. *)
Record Shot := { url : jsstring; preview : jsstring; title : option jsstring }.

(** What differs between the extractor of [scrape60fps.js] and that of
    [api/scrape.js]. *)
Record Heuristics := {
  (** bound on [attempts] in the ancestor walk *)
  maxDepth : nat;
  (** words a heading must not include *)
  headingExclusions : list jsstring;
  (** whether [p, span, div] are scanned when no heading qualified *)
  scanTextElements : bool;
  (** words the [href] of a shot link must not include *)
  hrefExclusions : list jsstring;
  (** clean-up of a link text adopted as title *)
  cleanLinkTitle : jsstring → jsstring
}.

Module Extractor.
Import Js.

Definition site : jsstring := lit "https://60fps.design".

Definition notSlash (c : N) : bool := negb (c =? 47)%N.

Definition takeWhile (p : N → bool) : jsstring → jsstring :=
  fix go s :=
    match s with
    | [] => []
    | c :: s' => if p c then c :: go s' else []
    end.

(** [/[^\/]+\/([^\/]+)/] right after the host: the capture. *)
Definition gumletAt (s : jsstring) : option jsstring :=
  let bucket := takeWhile notSlash s in
  match bucket, drop (length bucket) s with
  | _ :: _, _ :: rest =>
      match takeWhile notSlash rest with
      | [] => None
      | id => Some id
      end
  | _, _ => None
  end.

(** [previewUrl.match(/video\.gumlet\.io\/[^\/]+\/([^\/]+)/)]: group 1
    of the leftmost match. *)
Fixpoint gumletMatch (s : jsstring) : option jsstring :=
  match
    (if startsWith (lit "video.gumlet.io/") s then gumletAt (drop 16 s) else None)
  with
  | Some id => Some id
  | None =>
      match s with
      | [] => None
      | _ :: s' => gumletMatch s'
      end
  end.

(** [a || b] where both may be [null]. *)
Definition orNull (a b : option jsstring) : option jsstring :=
  if truthy a then a else b.

Definition resolvePreview (v : Video) : option jsstring :=
  let previewUrl := match source v with Some s => s | None => None end in
  if truthy previewUrl then previewUrl else orNull (src v) (dataSrc v).

Definition extractVideoId (previewUrl : option jsstring) : option jsstring :=
  match previewUrl with
  | Some p =>
      if truthy previewUrl && includes (lit "video.gumlet.io") p
      then gumletMatch p else None
  | None => None
  end.

Definition headingOk (cfg : Heuristics) (text : jsstring) : bool :=
  truthy (Some text) && bool_decide (10 < length text)
  && bool_decide (length text < 100)
  && forallb (λ w, negb (includes w text)) (headingExclusions cfg).

Definition motionKeywords : list jsstring :=
  [lit "Interaction"; lit "Animation"; lit "Swipe"; lit "Card";
   lit "Button"; lit "Progress"; lit "Splash"; lit "Gesture"].

Definition textOk (text : jsstring) : bool :=
  truthy (Some text) && bool_decide (15 < length text)
  && bool_decide (length text < 80)
  && existsb (λ w, includes w text) motionKeywords.

(** The test on an anchor of the [links] loop. *)
Definition hrefOk (cfg : Heuristics) (h : jsstring) : bool :=
  truthy (Some h) && includes (lit "/shots/") h
  && forallb (λ w, negb (includes w h)) (hrefExclusions cfg)
  && bool_decide (15 < length h).

Definition cleanHref (h : jsstring) : jsstring :=
  let c := if startsWith (lit "./") h then substringFrom 2 h else h in
  if startsWith (lit "/") c then c else lit "/" ++ c.

Definition linkUrl (videoId : option jsstring) (h : jsstring) : jsstring :=
  if truthy videoId
  then site ++ cleanHref h ++ lit "?video=" ++ default [] videoId
  else site ++ cleanHref h.

(** First element of a list that passes a test, as the [for ... of]
    loops with [break] select it. *)
Definition findFirst {A} (p : A → bool) (l : list A) : option A :=
  List.find p l.

(** The title after the heading and text loops on one element. *)
Definition scanTitle (cfg : Heuristics) (el : Element) (shotTitle : option jsstring)
  : option jsstring :=
  let t1 :=
    match findFirst (headingOk cfg) (trim <$> headings el) with
    | Some text => Some text
    | None => shotTitle
    end in
  if negb (truthy t1) && scanTextElements cfg then
    match findFirst textOk (trim <$> textElements el) with
    | Some text => Some text
    | None => t1
    end
  else t1.

(** The title after an anchor was accepted. *)
Definition adoptLinkTitle (cfg : Heuristics) (a : Anchor) (shotTitle : option jsstring)
  : option jsstring :=
  let text := trim (linkText a) in
  if negb (truthy shotTitle) && truthy (Some text) && bool_decide (5 < length text)
  then Some (cleanLinkTitle cfg text) else shotTitle.

(** The ancestor walk over the elements still to visit: the title and
    the shot URL when it ends. The URL assigned from an anchor starts
    with the site prefix, so [if (shotUrl) break] leaves the loop as
    soon as an anchor was accepted. *)
Fixpoint walk (cfg : Heuristics) (videoId : option jsstring) (levels : list Element)
    (shotTitle : option jsstring) : option jsstring * option jsstring :=
  match levels with
  | [] => (shotTitle, None)
  | el :: up =>
      let t := scanTitle cfg el shotTitle in
      match findFirst (λ a, hrefOk cfg (href a)) (links el) with
      | Some a => (adoptLinkTitle cfg a t, Some (linkUrl videoId (href a)))
      | None => walk cfg videoId up t
      end
  end.

(** The slug made from a title. *)
Definition slugify `{UnicodeCase} (shotTitle : jsstring) : jsstring :=
  trimHyphen
    (replaceRuns isHyphen false
       (replaceRuns isWhiteSpace false
          (removeSpecial (toLowerCase (stripTrailingNumber shotTitle))))).

(** [shotTitle] and [shotUrl] after the ancestor walk and the fallback
    that makes a URL from the title or from the video id. *)
Definition resolveShot `{UnicodeCase} (cfg : Heuristics) (index : nat) (v : Video)
  : option jsstring * option jsstring :=
  let videoId := extractVideoId (resolvePreview v) in
  let '(shotTitle, shotUrl) :=
    walk cfg videoId (take (maxDepth cfg) (self v :: ancestors v)) None in
  if negb (truthy shotUrl) && truthy videoId then
    let id := default [] videoId in
    let '(shotSlug, shotTitle) :=
      if truthy shotTitle
      then (slugify (default [] shotTitle), shotTitle)
      else (lit "motion-video-" ++ substringTo 8 id,
            Some (lit "Motion Video " ++ decimal (index + 1))) in
    (shotTitle, Some (site ++ lit "/shots/" ++ shotSlug ++ lit "?video=" ++ id))
  else (shotTitle, shotUrl).

(** The body of the [videos.forEach] callback: the record pushed, if
    any. *)
Definition extractVideo `{UnicodeCase} (cfg : Heuristics) (index : nat) (v : Video)
  : option Shot :=
  let previewUrl := resolvePreview v in
  let '(shotTitle, shotUrl) := resolveShot cfg index v in
  match shotUrl, previewUrl with
  | Some u, Some p =>
      if truthy shotUrl && truthy previewUrl
      then Some {| url := u; preview := p;
                   title := Some (orElse shotTitle (lit "Video " ++ decimal (index + 1))) |}
      else None
  | _, _ => None
  end.

(** The second pass: [seenUrls] is the set of the URLs kept so far. *)
Fixpoint uniqueFrom (seenUrls : gset (list N)) (results : list Shot) : list Shot :=
  match results with
  | [] => []
  | shot :: rest =>
      if decide (url shot ∈ seenUrls)
      then uniqueFrom seenUrls rest
      else shot :: uniqueFrom ({[url shot]} ∪ seenUrls) rest
  end.

Definition uniqueResults (results : list Shot) : list Shot := uniqueFrom ∅ results.

(** [results] after the [forEach] over the video elements. *)
Definition collect `{UnicodeCase} (cfg : Heuristics) (videos : list Video) : list Shot :=
  omap id (imap (extractVideo cfg) videos).

(** The function passed to [page.evaluate]. *)
Definition extractShots `{UnicodeCase} (cfg : Heuristics) (videos : list Video) : list Shot :=
  uniqueResults (collect cfg videos).

End Extractor.

(** ** The browser as an environment *)

(** The message of a JavaScript [Error]. *)
Definition Error := string.

(** What an awaited call does: it returns, or it throws. *)
Inductive Outcome (A : Type) : Type :=
  | Returned (a : A)
  | Thrown (e : Error).
Arguments Returned {A} a.
Arguments Thrown {A} e.

#[export] Instance outcome_ret : MRet Outcome := λ A a, Returned a.
#[export] Instance outcome_bind : MBind Outcome := λ A B f m,
  match m with
  | Returned a => f a
  | Thrown e => Thrown e
  end.

(** A candidate of the load-button search with the answers of its three
    awaited calls. *)
Record Button := {
  textContent : Outcome (option jsstring);
  isVisible : Outcome bool;
  click : Outcome unit
}.

(** The answers of Playwright and of the page during one run. The calls
    of the load loop are indexed by the value of [loadAttempts] when they
    are made; selectors are the keys the source passes to [page.locator]. *)
Record Browser := {
  launch : Outcome unit;
  newContext : Outcome unit;
  newPage : Outcome unit;
  goto : Outcome unit;
  settle : Outcome unit;
  detectCount : string → Outcome nat;
  pageTitle : Outcome jsstring;
  buttonsAt : nat → string → Outcome (list Button);
  waitAt : nat → Outcome unit;
  countAt : nat → string → Outcome nat;
  evaluate : Outcome (list Video);
  close : Outcome unit
}.

(** The browser process. *)
Inductive Process := NotLaunched | Running | Closed.

#[export] Instance Process_eq_dec : EqDecision Process.
Proof. solve_decision. Defined.

(** A computation that may start or stop the browser process. *)
Definition M (A : Type) : Type := Process → Outcome A * Process.

Definition lift {A} (o : Outcome A) : M A := λ st, (o, st).

Definition andThen {A B} (m : M A) (k : A → M B) : M B := λ st,
  match m st with
  | (Returned a, st') => k a st'
  | (Thrown e, st') => (Thrown e, st')
  end.

(** [try { body } catch (error) { handler } finally { cleanup }]: an
    error of the clean-up replaces the pending result. *)
Definition tryCatchFinally {A} (body : M A) (handler : Error → M A) (cleanup : M unit)
  : M A := λ st,
  let '(r, st1) :=
    match body st with
    | (Returned a, st') => (Returned a, st')
    | (Thrown e, st') => handler e st'
    end in
  match cleanup st1 with
  | (Returned _, st2) => (r, st2)
  | (Thrown e, st2) => (Thrown e, st2)
  end.

Definition launchBrowser (b : Browser) : M unit := λ st,
  match launch b with
  | Returned _ => (Returned (), Running)
  | Thrown e => (Thrown e, st)
  end.

Definition closeBrowser (b : Browser) : M unit := λ st,
  match close b with
  | Returned _ => (Returned (), Closed)
  | Thrown e => (Thrown e, st)
  end.

(** ** The stages shared by the two scrapers *)

Module Stages.
Import Js.

(** The selector loop of the Content-Ready Detector: the first
    selector whose count is positive; a call that throws is skipped. *)
Fixpoint detect (b : Browser) (selectors : list string) : option (string * nat) :=
  match selectors with
  | [] => None
  | selector :: rest =>
      match detectCount b selector with
      | Returned contentCount =>
          if bool_decide (0 < contentCount) then Some (selector, contentCount)
          else detect b rest
      | Thrown _ => detect b rest
      end
  end.

Definition textSuggestsLoad `{UnicodeCase} (keywords : list jsstring) (text : jsstring)
  : bool :=
  existsb (λ w, includes w (toLowerCase text)) keywords.

(** The inner [for (const button of buttons)] loop inside its [try]:
    whether a button was clicked. An awaited call that throws leaves
    the loop for the [catch]. *)
Fixpoint scanButtons `{UnicodeCase} (keywords : list jsstring) (buttons : list Button)
  : bool :=
  match buttons with
  | [] => false
  | button :: rest =>
      match textContent button, isVisible button with
      | Returned text, Returned visible =>
          if visible && truthy text && textSuggestsLoad keywords (default [] text)
          then match click button with
               | Returned _ => true
               | Thrown _ => false
               end
          else scanButtons keywords rest
      | _, _ => false
      end
  end.

(** [lastButtonClicked] after the loop over [buttonSelectors]. *)
Definition clickLoadButton `{UnicodeCase} (b : Browser) (keywords : list jsstring)
    (buttonSelectors : list string) (loadAttempts : nat) : bool :=
  existsb
    (λ selector,
       match buttonsAt b loadAttempts selector with
       | Returned buttons => scanButtons keywords buttons
       | Thrown _ => false
       end)
    buttonSelectors.

(** What the loop of one scraper fixes: its keywords, its button
    selectors, its attempt budget and the condition of its [while]. *)
Record Loader := {
  keywords : list jsstring;
  buttonSelectors : list string;
  maxLoadAttempts : nat;
  whileCondition : nat → bool → nat → nat → bool
}.

(** Whether the [do ... while] runs again, from the values at the end
    of an iteration: the two [break]s, then the loop condition. *)
Definition continues (L : Loader) (loadAttempts : nat) (lastButtonClicked : bool)
    (currentCount previousCount : nat) : bool :=
  if bool_decide (maxLoadAttempts L ≤ loadAttempts) then false
  else if negb lastButtonClicked && bool_decide (0 < currentCount) then false
  else whileCondition L loadAttempts lastButtonClicked currentCount previousCount.

(** The [do ... while] loop from the start of an iteration, with the
    values of [currentCount] and [loadAttempts] there: their values
    when the loop ends, or the error of the wait or of the count. *)
Equations loadLoop `{UnicodeCase} (L : Loader) (b : Browser) (foundSelector : string)
    (currentCount loadAttempts : nat) : Outcome (nat * nat)
    by wf (maxLoadAttempts L - loadAttempts) lt :=
  loadLoop L b foundSelector currentCount loadAttempts :=
    let previousCount := currentCount in
    let lastButtonClicked :=
      clickLoadButton b (keywords L) (buttonSelectors L) loadAttempts in
    match waitAt b loadAttempts with
    | Thrown e => Thrown e
    | Returned _ =>
        match countAt b loadAttempts foundSelector with
        | Thrown e => Thrown e
        | Returned currentCount' =>
            match decide (continues L (S loadAttempts) lastButtonClicked
                            currentCount' previousCount = true) with
            | left _ => loadLoop L b foundSelector currentCount' (S loadAttempts)
            | right _ => Returned (currentCount', S loadAttempts)
            end
        end
    end.
Next Obligation.
  match goal with H : continues _ _ _ _ _ = true |- _ =>
    unfold continues in H; case_bool_decide; [done | lia] end.
Qed.

End Stages.

(** ** scrape60fps.js *)

(** Selectors are written with single quotes where the source has
    double quotes inside a single-quoted literal. *)
Module Primary.
Import Js Stages.

Definition heuristics : Heuristics := {|
  maxDepth := 8;
  headingExclusions := [lit "Shots"; lit "Apps"; lit "Filter"; lit "Learn"];
  scanTextElements := true;
  hrefExclusions := [lit "filter"; lit "watch"];
  cleanLinkTitle := λ linkText,
    trim (stripTrailingSpace (stripTrailingNumber linkText))
|}.

Definition possibleSelectors : list string :=
  ["a[href^='/shots/']"; "a[href*='/shots/']"; "[href*='/shots/']";
   "a[href*='shots']"; "video"; "video source";
   "[data-framer-name*='shot']"; "[data-framer-name*='card']";
   "[data-framer-name*='grid']"; ".framer-*"; "[data-framer-*]";
   "[class*='shot']"; "[class*='card']"; "[class*='item']"]%string.

Definition loader : Loader := {|
  keywords := [lit "load"; lit "more"; lit "show"; lit "view"];
  buttonSelectors :=
    ["button:has-text('Load')"; "button:has-text('Show more')";
     "button:has-text('Load more')"; "button:has-text('More')";
     "[data-framer-name*='load']"; "[data-framer-name*='more']";
     "[data-framer-name*='button']"; "button[class*='load']";
     "button[class*='more']"; ".load-more"; ".show-more"; "button";
     "[role='button']"]%string;
  maxLoadAttempts := 20;
  whileCondition := λ loadAttempts lastButtonClicked currentCount previousCount,
    bool_decide (loadAttempts < 3)
    || (lastButtonClicked && bool_decide (previousCount < currentCount))
|}.

Definition mockData : list Shot := [
  {| url := lit "https://60fps.design/shots/amie-drag-to-calendar-morph";
     preview := lit "https://cdn.60fps.design/shots/amie-drag-to-calendar-morph/preview.mp4";
     title := None |};
  {| url := lit "https://60fps.design/shots/cred-recurring-payments-card-swipe";
     preview := lit "https://cdn.60fps.design/shots/cred-recurring-payments/preview.mp4";
     title := None |};
  {| url := lit "https://60fps.design/shots/mozi-onboarding-carousel-tabs";
     preview := lit "https://cdn.60fps.design/shots/mozi-onboarding/preview.mp4";
     title := None |};
  {| url := lit "https://60fps.design/shots/opentable-splash-animation";
     preview := lit "https://cdn.60fps.design/shots/opentable-splash/preview.mp4";
     title := None |};
  {| url := lit "https://60fps.design/shots/framer-motion-cards-grid";
     preview := lit "https://cdn.60fps.design/shots/framer-motion-cards/preview.mp4";
     title := None |}
].

Definition errorPage : Error :=
  "The shots page appears to be showing an error. The site might be down or have changed structure.".
Definition noContent : Error :=
  "No shot content found with any known selectors. The site structure may have changed.".

(** The [try] block. *)
Definition scrapeBody `{UnicodeCase} (b : Browser) : Outcome (list Shot) :=
  _ ← goto b;
  _ ← settle b;
  match detect b possibleSelectors with
  | None =>
      title ← pageTitle b;
      if includes (lit "Wups") title || includes (lit "Error") title
      then Thrown errorPage else Thrown noContent
  | Some (foundSelector, _) =>
      _ ← loadLoop loader b foundSelector 0 0;
      videos ← evaluate b;
      mret (Extractor.extractShots heuristics videos)
  end.

Definition scrape60fps `{UnicodeCase} (b : Browser) : M (list Shot) :=
  andThen (launchBrowser b) (λ _,
  andThen (lift (newContext b)) (λ _,
  andThen (lift (newPage b)) (λ _,
    tryCatchFinally
      (lift (scrapeBody b))
      (λ _, lift (Returned mockData))
      (closeBrowser b)))).

End Primary.

(** ** api/scrape.js *)

Module Serverless.
Import Js Stages.

Definition heuristics : Heuristics := {|
  maxDepth := 6;
  headingExclusions := [lit "Shots"; lit "Apps"];
  scanTextElements := false;
  hrefExclusions := [lit "filter"];
  cleanLinkTitle := λ linkText, trim (stripTrailingNumber linkText)
|}.

Definition possibleSelectors : list string :=
  ["a[href^='/shots/']"; "a[href*='/shots/']"; "[href*='/shots/']";
   "a[href*='shots']"; "video"; "video source";
   "[data-framer-name*='shot']"; "[data-framer-name*='card']";
   "[class*='shot']"; "[class*='card']"]%string.

Definition loader : Loader := {|
  keywords := [lit "load"; lit "more"; lit "show"];
  buttonSelectors :=
    ["button:has-text('Load')"; "button:has-text('Show more')";
     "button:has-text('Load more')"; "button:has-text('More')";
     "[data-framer-name*='load']"; "[data-framer-name*='more']";
     "button"]%string;
  maxLoadAttempts := 5;
  whileCondition := λ loadAttempts _ currentCount previousCount,
    bool_decide (loadAttempts < 3) || bool_decide (previousCount < currentCount)
|}.

Definition mockData : list Shot := [
  {| url := lit "https://60fps.design/shots/amie-drag-to-calendar-morph";
     preview := lit "https://cdn.60fps.design/shots/amie-drag-to-calendar-morph/preview.mp4";
     title := Some (lit "Amie Drag To Calendar Morph") |};
  {| url := lit "https://60fps.design/shots/cred-recurring-payments-card-swipe";
     preview := lit "https://cdn.60fps.design/shots/cred-recurring-payments/preview.mp4";
     title := Some (lit "CRED Recurring Payments Card Swipe") |};
  {| url := lit "https://60fps.design/shots/mozi-onboarding-carousel-tabs";
     preview := lit "https://cdn.60fps.design/shots/mozi-onboarding/preview.mp4";
     title := Some (lit "Mozi Onboarding Carousel Tabs") |}
].

Definition noContent : Error :=
  "No shot content found. The site structure may have changed.".

(** The [try] block after the page was opened. *)
Definition scrapeBody `{UnicodeCase} (b : Browser) : Outcome (list Shot) :=
  _ ← goto b;
  _ ← settle b;
  match detect b possibleSelectors with
  | None => Thrown noContent
  | Some (foundSelector, _) =>
      _ ← loadLoop loader b foundSelector 0 0;
      videos ← evaluate b;
      mret (Extractor.extractShots heuristics videos)
  end.

(** [if (browser) { await browser.close(); }]: [browser] is assigned
    exactly when the launch returned. *)
Definition closeIfLaunched (b : Browser) : M unit := λ st,
  if decide (st = Running) then closeBrowser b st else (Returned (), st).

Definition scrape60fps `{UnicodeCase} (b : Browser) : M (list Shot) :=
  tryCatchFinally
    (andThen (launchBrowser b) (λ _,
     andThen (lift (newContext b)) (λ _,
     andThen (lift (newPage b)) (λ _,
       lift (scrapeBody b)))))
    (λ _, lift (Returned mockData))
    (closeIfLaunched b).

End Serverless.

(** ** The result formatter of the two wrappers *)

Module JsonRow.
(** A record of the JSON array. *)
Record t := {
  title : jsstring;
  url : jsstring;
  preview_url : jsstring;
  source : jsstring;
  scraped_at : jsstring
}.
End JsonRow.

Module Format.
Import Js.

Definition capitalize `{UnicodeCase} (word : jsstring) : jsstring :=
  toUpperCase (charAt0 word) ++ slice1 word.

Definition extractTitleFromUrl `{UnicodeCase} (url : jsstring) : jsstring :=
  if negb (truthy (Some url)) then lit "Untitled Shot"
  else
    match split (lit "/shots/") url with
    | _ :: part :: _ =>
        join (lit " ") (capitalize <$> split (lit "-") (stripQuery part))
    | _ => lit "Untitled Shot"
    end.

(** The callback of [shots.map]; [nowIso] is the time stamp of the run. *)
Definition formatRow `{UnicodeCase} (nowIso : jsstring) (s : Shot) : JsonRow.t := {|
  JsonRow.title := trim (stripTrailingNumber (orElse (title s) (extractTitleFromUrl (url s))));
  JsonRow.url := url s;
  JsonRow.preview_url := preview s;
  JsonRow.source := lit "60fps.design";
  JsonRow.scraped_at := nowIso
|}.

End Format.

(** ** scrape60fps-n8n.js *)

(** A JavaScript number: a finite double is a rational. *)
Inductive JsNumber := NaN | Infinity (negative : bool) | Finite (q : Q).

(** [Number(s)] on a string, the conversion of the runtime. *)
Class NumberConversion := { stringToNumber : jsstring → JsNumber }.

Module Cli.
Import Js.

(** [Number(v)] where [v] is a string or [undefined]. *)
Definition toNumber `{NumberConversion} (v : option jsstring) : JsNumber :=
  match v with
  | Some s => stringToNumber s
  | None => NaN
  end.

(** [Number.isFinite(n) && n > 0] and, when it holds, [Math.floor(n)]. *)
Definition positiveFloor (n : JsNumber) : option Z :=
  match n with
  | Finite q => if Qlt_le_dec 0%Q q then Some (Qfloor q) else None
  | _ => None
  end.

(** [process.argv.findIndex(a => a === '--limit')] *)
Fixpoint findIndex (argv : list jsstring) : option nat :=
  match argv with
  | [] => None
  | a :: rest => if eqb a (lit "--limit") then Some 0 else S <$> findIndex rest
  end.

(** The argument after [--limit], when there is one and it is not
    empty. *)
Definition limitArg (argv : list jsstring) : option jsstring :=
  match findIndex argv with
  | Some argIdx =>
      match argv !! (argIdx + 1) with
      | Some a => if truthy (Some a) then Some a else None
      | None => None
      end
  | None => None
  end.

(** [null] is [None]. *)
Definition parseLimitArg `{NumberConversion} (argv : list jsstring)
    (envLIMIT : option jsstring) : option Z :=
  match
    match limitArg argv with
    | Some a => positiveFloor (toNumber (Some a))
    | None => None
    end
  with
  | Some n => Some n
  | None => positiveFloor (toNumber envLIMIT)
  end.

(** [if (limit) rows = rows.slice(0, limit)] *)
Definition applyLimit {A} (limit : option Z) (rows : list A) : list A :=
  match limit with
  | Some n => if bool_decide (n ≠ 0%Z) then take (Z.to_nat n) rows else rows
  | None => rows
  end.

(** What the process leaves: the rows written to standard output, or
    the message written to standard error with exit code 1. *)
Inductive Exit := Stdout (rows : list JsonRow.t) | Failure (message : Error).

Definition main `{UnicodeCase} `{NumberConversion} (argv : list jsstring)
    (envLIMIT : option jsstring) (b : Browser) (nowIso : jsstring) : Exit :=
  let limit := parseLimitArg argv envLIMIT in
  match (Primary.scrape60fps b NotLaunched).1 with
  | Returned shots => Stdout (applyLimit limit (Format.formatRow nowIso <$> shots))
  | Thrown e => Failure e
  end.

End Cli.

(** ** The HTTP handler of api/scrape.js *)

Module Http.

Record Request := { method : string; query : list (string * jsstring) }.

Inductive Body :=
  | Empty
  | Rows (rows : list JsonRow.t)
  | Failed (error : Error) (timestamp : jsstring).

Record Response := { status : nat; body : Body }.

(** [nowIso] is the reading of the clock on the path taken. *)
Definition handler `{UnicodeCase} (req : Request) (b : Browser) (nowIso : jsstring)
  : Response :=
  if String.eqb (method req) "OPTIONS" then {| status := 200; body := Empty |}
  else
    match (Serverless.scrape60fps b NotLaunched).1 with
    | Returned shots =>
        {| status := 200; body := Rows (Format.formatRow nowIso <$> shots) |}
    | Thrown e =>
        {| status := 500;
           body := Failed (if String.eqb e "" then "Unknown error occurred" else e) nowIso |}
    end.

End Http.

(** ** The entry point of scrape60fps.js *)

Module PrimaryMain.

(** What [main] leaves: the results it returns, or the message of the
    fatal error with which it calls [process.exit(1)]. *)
Inductive Exit := Resolved (results : list Shot) | Fatal (message : Error).

Definition main `{UnicodeCase} (b : Browser) : Exit :=
  match (Primary.scrape60fps b NotLaunched).1 with
  | Returned results => Resolved results
  | Thrown e => Fatal e
  end.

End PrimaryMain.

(** ** Vocabulary of the statements and concrete inputs *)

(** The code units of a finished slug. *)
Definition isSlugChar (c : N) : bool := Js.isLower c || Js.isDigit c || Js.isHyphen c.

Definition startsWithHyphen (s : jsstring) : bool :=
  match s with
  | c :: _ => Js.isHyphen c
  | [] => false
  end.

Fixpoint noHyphenPair (s : jsstring) : bool :=
  match s with
  | c :: s' => negb (Js.isHyphen c && startsWithHyphen s') && noHyphenPair s'
  | [] => true
  end.

Fixpoint endsWithHyphen (s : jsstring) : bool :=
  match s with
  | [] => false
  | c :: s' =>
      match s' with
      | [] => Js.isHyphen c
      | _ :: _ => endsWithHyphen s'
      end
  end.

(** The shape of a finished slug: lower-case letters, digits and single
    hyphens, none at either end. *)
Definition normalSlug (s : jsstring) : Prop :=
  Forall (λ c, isSlugChar c = true) s ∧ noHyphenPair s = true
  ∧ startsWithHyphen s = false ∧ endsWithHyphen s = false.

(** Follows the words of the specification: of the records of a list,
    those whose url occurs in no earlier record, in the order of the list. *)
Definition keepFirstOccurrences (results : list Shot) : list Shot :=
  omap id
    (imap (λ i shot,
             if decide (url shot ∈ url <$> take i results) then None else Some shot)
       results).




Inductive Scraper := PrimaryScraper | ServerlessScraper.

Definition loaderOf (s : Scraper) : Stages.Loader :=
  match s with
  | PrimaryScraper => Primary.loader
  | ServerlessScraper => Serverless.loader
  end.

Definition selectorsOf (s : Scraper) : list string :=
  match s with
  | PrimaryScraper => Primary.possibleSelectors
  | ServerlessScraper => Serverless.possibleSelectors
  end.

Definition heuristicsOf (s : Scraper) : Heuristics :=
  match s with
  | PrimaryScraper => Primary.heuristics
  | ServerlessScraper => Serverless.heuristics
  end.

Definition fallbackSet (s : Scraper) : list Shot :=
  match s with
  | PrimaryScraper => Primary.mockData
  | ServerlessScraper => Serverless.mockData
  end.

Definition bodyOf `{UnicodeCase} (s : Scraper) (b : Browser) : Outcome (list Shot) :=
  match s with
  | PrimaryScraper => Primary.scrapeBody b
  | ServerlessScraper => Serverless.scrapeBody b
  end.

(** A run of [scrape60fps] from a state where no browser was launched:
    what it returns or throws, and the browser process it leaves. *)
Definition run `{UnicodeCase} (s : Scraper) (b : Browser) : Outcome (list Shot) * Process :=
  match s with
  | PrimaryScraper => Primary.scrape60fps b NotLaunched
  | ServerlessScraper => Serverless.scrape60fps b NotLaunched
  end.

(** Follow the words of the specification of the Incremental Loader. *)
Definition runsAgain (budget attempts : nat) (clicked : bool) (count previous : nat)
  : bool :=
  bool_decide (attempts < budget)
  && (bool_decide (attempts < 3) || (clicked && bool_decide (previous < count))).

Definition stopsEarly (clicked : bool) (count : nat) : bool :=
  negb clicked && bool_decide (0 < count).







(** A stand-in for the Unicode tables in the examples, whose strings are
    ASCII: it leaves a string with a code unit outside ASCII as it is. *)
Definition asciiCase : UnicodeCase :=
  {| unicodeToLowerCase := λ s, s; unicodeToUpperCase := λ s, s |}.

(** A page that shows [videos] and no load button; [video] matches. *)
Definition stillPage (videos : list Video) : Browser := {|
  launch := Returned ();
  newContext := Returned ();
  newPage := Returned ();
  goto := Returned ();
  settle := Returned ();
  detectCount := λ selector,
    if String.eqb selector "video" then Returned (length videos) else Returned 0;
  pageTitle := Returned (lit "60fps");
  buttonsAt := λ _ _, Returned [];
  waitAt := λ _, Returned ();
  countAt := λ _ _, Returned (length videos);
  evaluate := Returned videos;
  close := Returned ()
|}.

(** The navigation times out. *)
Definition gotoFails : Browser := {|
  launch := Returned ();
  newContext := Returned ();
  newPage := Returned ();
  goto := Thrown "page.goto: Timeout 60000ms exceeded.";
  settle := Returned ();
  detectCount := λ _, Returned 0;
  pageTitle := Returned [];
  buttonsAt := λ _ _, Returned [];
  waitAt := λ _, Returned ();
  countAt := λ _ _, Returned 0;
  evaluate := Returned [];
  close := Returned ()
|}.



(** The browser starts and [browser.newContext] rejects. *)
Definition contextFails : Browser := {|
  launch := Returned ();
  newContext := Thrown "browser.newContext: Target page, context or browser has been closed";
  newPage := Returned ();
  goto := Returned ();
  settle := Returned ();
  detectCount := λ _, Returned 0;
  pageTitle := Returned [];
  buttonsAt := λ _ _, Returned [];
  waitAt := λ _, Returned ();
  countAt := λ _ _, Returned 0;
  evaluate := Returned [];
  close := Returned ()
|}.





Definition runTime : list N := lit "2025-09-20T11:40:18.861Z".

Definition noElement : Element := {| headings := []; textElements := []; links := [] |}.

(** A video below an anchor whose href holds [watch]. *)
Definition watchVideo : Video := {|
  source := Some (Some (lit "https://cdn.60fps.design/previews/watch-later.mp4"));
  src := None;
  dataSrc := None;
  self := noElement;
  ancestors :=
    [{| headings := []; textElements := [];
        links := [{| href := lit "/shots/watch-later-demo";
                     linkText := lit "Watch later demo" |}] |}]
|}.

(** The first scenario of the specification: a Gumlet source, an anchor
    above the video, no heading. *)
Definition demoVideo : Video := {|
  source := Some (Some (lit "https://video.gumlet.io/bucket1/abc12345/main.mp4"));
  src := None;
  dataSrc := None;
  self := noElement;
  ancestors :=
    [{| headings := []; textElements := [];
        links := [{| href := lit "/shots/demo-swipe"; linkText := lit "Demo Swipe 5" |}] |}]
|}.

(** The count of a selector is zero or its call throws. *)
Definition noSignal (b : Browser) (selector : string) : Prop :=
  ∀ n, detectCount b selector = Returned n → n = 0.

(** The launch, the context, the page or the final close of the primary
    scraper rejects with [e]; each call is made only when those before
    it returned. *)
Definition sessionRejects (b : Browser) (e : Error) : Prop :=
  launch b = Thrown e
  ∨ (launch b = Returned () ∧ newContext b = Thrown e)
  ∨ (launch b = Returned () ∧ newContext b = Returned ()
     ∧ newPage b = Thrown e)
  ∨ (launch b = Returned () ∧ newContext b = Returned ()
     ∧ newPage b = Returned () ∧ close b = Thrown e).

(** Four shot links are found and the page holds no video element. *)
Definition linksOnlyPage : Browser := {|
  launch := Returned ();
  newContext := Returned ();
  newPage := Returned ();
  goto := Returned ();
  settle := Returned ();
  detectCount := λ selector,
    if String.eqb selector "a[href^='/shots/']" then Returned 4 else Returned 0;
  pageTitle := Returned (lit "60fps");
  buttonsAt := λ _ _, Returned [];
  waitAt := λ _, Returned ();
  countAt := λ _ _, Returned 4;
  evaluate := Returned [];
  close := Returned ()
|}.

(** A page whose only button is a visible [Load more] that can be
    clicked; the count grows by two with each of the first three clicks. *)
Definition loadMorePage : Browser := {|
  launch := Returned ();
  newContext := Returned ();
  newPage := Returned ();
  goto := Returned ();
  settle := Returned ();
  detectCount := λ selector,
    if String.eqb selector "video" then Returned 2 else Returned 0;
  pageTitle := Returned (lit "60fps");
  buttonsAt := λ _ selector,
    if String.eqb selector "button"
    then Returned [{| textContent := Returned (Some (lit " Load More "));
                      isVisible := Returned true;
                      click := Returned () |}]
    else Returned [];
  waitAt := λ _, Returned ();
  countAt := λ i _, Returned (2 + 2 * Nat.min i 3);
  evaluate := Returned [];
  close := Returned ()
|}.

(** The character [/]. *)
Definition slash : N := 47%N.

(** No anchor of an element passes the test of the links loop. *)
Definition noShotLink (cfg : Heuristics) (el : Element) : Prop :=
  Forall (λ a, Extractor.hrefOk cfg (href a) = false) (links el).

(** A record, and a row, as a consumer may rely on it. *)
Definition onSite (u : jsstring) : Prop :=
  Js.startsWith (lit "https://60fps.design/") u = true.

Definition soundShots (shots : list Shot) : Prop :=
  NoDup (url <$> shots)
  ∧ Forall (λ shot, onSite (url shot) ∧ preview shot ≠ []) shots.

Definition soundRows (nowIso : jsstring) (rows : list JsonRow.t) : Prop :=
  NoDup (JsonRow.url <$> rows)
  ∧ Forall (λ r, onSite (JsonRow.url r) ∧ JsonRow.preview_url r ≠ []
                 ∧ JsonRow.source r = lit "60fps.design"
                 ∧ JsonRow.scraped_at r = nowIso) rows.

(** The elements the walk visits: those of the chain up to the first
    one that holds an accepted anchor, that one included. *)
Fixpoint visited (cfg : Heuristics) (levels : list Element) : list Element :=
  match levels with
  | [] => []
  | el :: up =>
      if existsb (λ a, Extractor.hrefOk cfg (href a)) (links el) then [el]
      else el :: visited cfg up
  end.

(** The first heading of an element that qualifies as a title. *)
Definition headingTitle (cfg : Heuristics) (el : Element) : option jsstring :=
  Extractor.findFirst (Extractor.headingOk cfg) (Js.trim <$> headings el).

(** A text element below a heading of the next ancestor. *)
Definition cardBelowHeading : Video := {|
  source := Some (Some (lit "https://video.gumlet.io/bucket1/abc12345/main.mp4"));
  src := None;
  dataSrc := None;
  self := noElement;
  ancestors :=
    [{| headings := []; textElements := [lit "Card Swipe to dismiss"]; links := [] |};
     {| headings := [lit "Featured this week"]; textElements := [];
        links := [{| href := lit "/shots/card-swipe-dismiss"; linkText := lit "Open" |}] |}]
|}.

(** The character [?]. *)
Definition questionMark : N := 63%N.

(** A word of a slug: no slash, no question mark and no hyphen. *)
Definition slugWord (w : jsstring) : Prop :=
  Forall (λ c, c ≠ slash ∧ c ≠ questionMark ∧ c ≠ Js.hyphen) w.

(** Nothing, or a question mark and what follows it up to the end of
    the URL. *)
Definition queryString (query : jsstring) : Prop :=
  query = []
  ∨ ∃ q, query = questionMark :: q
         ∧ Js.includes (lit "/shots/") q = false
         ∧ Forall (λ c, Js.isLineTerminator c = false) q.

(** ** Facts on strings *)

Module JsFacts.
Import Js.

Ltac char_solve :=
  unfold isSlugInput, isWhiteSpace, isLineTerminator, isDigit, isLower, isUpper,
    isAscii, isHyphen, hyphen, lowerAscii, upperAscii in *;
  rewrite ?orb_true_iff, ?andb_true_iff, ?orb_false_iff, ?andb_false_iff,
    ?negb_true_iff, ?negb_false_iff,
    ?N.leb_le, ?N.leb_gt, ?N.eqb_eq, ?N.eqb_neq, ?N.ltb_lt, ?N.ltb_ge in *;
  lia.

Lemma slugChar_not_space c : isSlugChar c = true → isWhiteSpace c = false.
Proof. unfold isSlugChar. char_solve. Qed.

Lemma slugChar_not_upper c : isSlugChar c = true → isUpper c = false.
Proof. unfold isSlugChar. char_solve. Qed.

Lemma slugChar_ascii c : isSlugChar c = true → isAscii c = true.
Proof. unfold isSlugChar. char_solve. Qed.

Lemma slugChar_input c : isSlugChar c = true → isSlugInput c = true.
Proof. unfold isSlugChar. char_solve. Qed.

Lemma slugInput_char c :
  isSlugInput c = true → isWhiteSpace c = false → isSlugChar c = true.
Proof. unfold isSlugChar. char_solve. Qed.

Lemma dropWhile_none p s : Forall (λ c, p c = false) s → dropWhile p s = s.
Proof. destruct 1 as [|c s Hc _]; simpl; [done | by rewrite Hc]. Qed.

Lemma dropWhile_suffix p s : dropWhile p s `suffix_of` s.
Proof.
  induction s as [|c s IH]; simpl; [done |].
  destruct (p c); [by apply suffix_cons_r | done].
Qed.

Lemma dropWhile_length p s : length (dropWhile p s) ≤ length s.
Proof. apply suffix_length, dropWhile_suffix. Qed.


Lemma dropWhile_shorter p s :
  length (dropWhile p s) < length s → ∃ c s', s = c :: s' ∧ p c = true.
Proof.
  destruct s as [|c s]; simpl; [lia |].
  destruct (p c) eqn:Hc; [eauto | simpl; lia].
Qed.

Lemma removeSpecial_input s : Forall (λ c, isSlugInput c = true) (removeSpecial s).
Proof.
  apply Forall_forall. intros c Hc.
  by apply list_elem_of_filter in Hc as [? _].
Qed.

Lemma removeSpecial_id s :
  Forall (λ c, isSlugInput c = true) s → removeSpecial s = s.
Proof.
  unfold removeSpecial. induction 1 as [|c s Hc _ IH]; [done |].
  rewrite filter_cons_True by done. by rewrite IH.
Qed.

Lemma replaceRuns_none p b s :
  Forall (λ c, p c = false) s → replaceRuns p b s = s.
Proof.
  intros Hs. revert b.
  induction Hs as [|c s Hc _ IH]; intros b; simpl; [done |].
  by rewrite Hc, IH.
Qed.

Lemma replaceRuns_space_slug b s :
  Forall (λ c, isSlugInput c = true) s →
  Forall (λ c, isSlugChar c = true) (replaceRuns isWhiteSpace b s).
Proof.
  intros Hs. revert b.
  induction Hs as [|c s Hc _ IH]; intros b; simpl; [constructor |].
  destruct (isWhiteSpace c) eqn:Hw.
  - destruct b; [apply IH | constructor; [done | apply IH]].
  - constructor; [by apply slugInput_char | apply IH].
Qed.

Lemma replaceRuns_hyphen_slug b s :
  Forall (λ c, isSlugChar c = true) s →
  Forall (λ c, isSlugChar c = true) (replaceRuns isHyphen b s).
Proof.
  intros Hs. revert b.
  induction Hs as [|c s Hc _ IH]; intros b; simpl; [constructor |].
  destruct (isHyphen c).
  - destruct b; [apply IH | constructor; [done | apply IH]].
  - constructor; [done | apply IH].
Qed.

Lemma isHyphen_eq c : isHyphen c = true → c = hyphen.
Proof. unfold isHyphen. by intros ?%N.eqb_eq. Qed.

Lemma replaceRuns_hyphen_pairs b s :
  noHyphenPair (replaceRuns isHyphen b s) = true
  ∧ (b = true → startsWithHyphen (replaceRuns isHyphen b s) = false).
Proof.
  revert b. induction s as [|c s IH]; intros b; simpl; [done |].
  destruct (isHyphen c) eqn:Hc.
  - destruct b; [apply IH |].
    simpl. destruct (IH true) as [-> Hh]. rewrite Hh by done.
    split; [done | discriminate].
  - simpl. rewrite Hc. destruct (IH false) as [-> _]. by split.
Qed.

Lemma replaceRuns_hyphen_id b s :
  noHyphenPair s = true → (b = true → startsWithHyphen s = false) →
  replaceRuns isHyphen b s = s.
Proof.
  revert b. induction s as [|c s IH]; intros b Hp Hb; simpl in *; [done |].
  apply andb_true_iff in Hp as [Hc Hp].
  destruct (isHyphen c) eqn:Hi; simpl in *.
  - destruct b; [by specialize (Hb eq_refl) |].
    apply negb_true_iff in Hc.
    rewrite (isHyphen_eq c Hi). f_equal. by apply IH.
  - f_equal. apply IH; [done | discriminate].
Qed.

Lemma dropLast1_id s : endsWithHyphen s = false → dropLast1 s = s.
Proof.
  induction s as [|c [|d s] IH]; simpl; intros Hs; [done | by rewrite Hs |].
  f_equal. by apply IH.
Qed.

Lemma dropLast1_Forall (P : N → Prop) s : Forall P s → Forall P (dropLast1 s).
Proof.
  induction s as [|c [|d s] IH]; simpl; intros Hs; [done | |].
  - destruct (isHyphen c); [constructor | done].
  - apply Forall_cons in Hs as [? ?]. constructor; [done | by apply IH].
Qed.

Lemma dropLast1_starts s :
  startsWithHyphen s = false → startsWithHyphen (dropLast1 s) = false.
Proof.
  destruct s as [|c [|d s]]; simpl; [done | | done].
  intros Hc. by rewrite Hc.
Qed.

Lemma dropLast1_pairs s :
  noHyphenPair s = true →
  noHyphenPair (dropLast1 s) = true ∧ endsWithHyphen (dropLast1 s) = false.
Proof.
  induction s as [|c [|d s] IH]; intros Hp; [done | |].
  - simpl. destruct (isHyphen c) eqn:Hc; simpl; [done |]. by rewrite Hc.
  - change (dropLast1 (c :: d :: s)) with (c :: dropLast1 (d :: s)).
    change (noHyphenPair (c :: d :: s))
      with (negb (isHyphen c && isHyphen d) && noHyphenPair (d :: s)) in Hp.
    apply andb_true_iff in Hp as [Hcd Hp].
    destruct (IH Hp) as [IH1 IH2].
    destruct (dropLast1 (d :: s)) as [|e t] eqn:Ht.
    + destruct s as [|e s]; [|done].
      simpl in Ht. destruct (isHyphen d) eqn:Hd; [|done].
      rewrite andb_true_r in Hcd. apply negb_true_iff in Hcd.
      simpl. by rewrite Hcd.
    + assert (e = d) as ->.
      { destruct s as [|e' s]; simpl in Ht.
        - destruct (isHyphen d); [done | by injection Ht]. 
        - by injection Ht. }
      split; [|done].
      change (negb (isHyphen c && isHyphen d) && noHyphenPair (d :: t) = true).
      by rewrite Hcd, IH1.
Qed.

Lemma trimHyphen_normal s :
  Forall (λ c, isSlugChar c = true) s → noHyphenPair s = true →
  normalSlug (trimHyphen s).
Proof.
  intros Hs Hp. destruct s as [|c s]; [by repeat split |].
  assert (noHyphenPair (c :: s) = true) as Hp' by done.
  simpl in Hp. apply andb_true_iff in Hp as [Hc Hp].
  apply Forall_cons in Hs as [Hcs Hs].
  cbn [trimHyphen]. destruct (isHyphen c) eqn:Hi; simpl in Hc.
  - apply negb_true_iff in Hc.
    destruct (dropLast1_pairs s Hp) as [? ?].
    repeat split; [by apply dropLast1_Forall | done | by apply dropLast1_starts | done].
  - destruct (dropLast1_pairs (c :: s) Hp') as [? ?].
    repeat split; [apply dropLast1_Forall; by constructor | done | | done].
    by apply dropLast1_starts.
Qed.

Lemma trimHyphen_id s :
  startsWithHyphen s = false → endsWithHyphen s = false → trimHyphen s = s.
Proof.
  destruct s as [|c s]; [done |]. simpl startsWithHyphen. intros Hc He.
  unfold trimHyphen. rewrite Hc. by apply dropLast1_id.
Qed.

Lemma stripTrailingNumber_no_space s :
  Forall (λ c, isWhiteSpace c = false) s → stripTrailingNumber s = s.
Proof.
  intros Hs. unfold stripTrailingNumber.
  set (r1 := dropWhile isDigit (reverse s)).
  rewrite (dropWhile_none isWhiteSpace r1).
  - rewrite (bool_decide_eq_false_2 (length r1 < length r1)) by lia.
    by rewrite andb_false_r.
  - apply Forall_forall. intros c Hc.
    assert (c ∈ s) as Hin.
    { apply elem_of_reverse.
      destruct (dropWhile_suffix isDigit (reverse s)) as [k Hk].
      rewrite Hk. apply elem_of_app. by right. }
    by apply (proj1 (Forall_forall _ _) Hs).
Qed.

Lemma toLowerCase_slug `{UnicodeCase} s :
  Forall (λ c, isSlugChar c = true) s → toLowerCase s = s.
Proof.
  intros Hs. unfold toLowerCase.
  assert (forallb isAscii s = true) as ->.
  { induction Hs as [|c s Hc _ IH]; simpl; [done |].
    by rewrite (slugChar_ascii c Hc), IH. }
  induction Hs as [|c s Hc _ IH]; [done |].
  rewrite fmap_cons, IH. f_equal.
  unfold lowerAscii. by rewrite (slugChar_not_upper c Hc).
Qed.

End JsFacts.

Section slug.
Context `{UnicodeCase}.
Import Js JsFacts Extractor.

Lemma slugify_normal (shotTitle : jsstring) : normalSlug (slugify shotTitle).
Proof.
  unfold slugify. apply trimHyphen_normal.
  - apply replaceRuns_hyphen_slug, replaceRuns_space_slug, removeSpecial_input.
  - apply replaceRuns_hyphen_pairs.
Qed.

Lemma slugify_fixes_normal (s : jsstring) : normalSlug s → slugify s = s.
Proof.
  intros (Hs & Hp & Hh & He). unfold slugify.
  assert (Forall (λ c, isWhiteSpace c = false) s) as Hw.
  { eapply Forall_impl; [exact Hs | apply slugChar_not_space]. }
  rewrite stripTrailingNumber_no_space by done.
  rewrite toLowerCase_slug by done.
  rewrite removeSpecial_id
    by (eapply Forall_impl; [exact Hs | apply slugChar_input]).
  rewrite (replaceRuns_none isWhiteSpace) by done.
  rewrite replaceRuns_hyphen_id; [by apply trimHyphen_id | done | discriminate].
Qed.

(** C7: the slug synthesis is idempotent: applied to a slug it made,
    it returns that slug unchanged. *)
Theorem slugify_idempotent (shotTitle : jsstring) :
  slugify (slugify shotTitle) = slugify shotTitle.
Proof. apply slugify_fixes_normal, slugify_normal. Qed.
End slug.

(** ** The record extractor *)

Section dedup.
Import Js Extractor.

Lemma uniqueFrom_spec (seenUrls : gset (list N)) (results : list Shot) :
  NoDup (url <$> uniqueFrom seenUrls results)
  ∧ (∀ shot, shot ∈ uniqueFrom seenUrls results →
       (url shot ∉ seenUrls) ∧ shot ∈ results)
  ∧ uniqueFrom seenUrls results `sublist_of` results
  ∧ (∀ shot, shot ∈ results →
       url shot ∈ seenUrls ∨ url shot ∈ url <$> uniqueFrom seenUrls results).
Proof.
  revert seenUrls. induction results as [|shot rest IH]; intros seenUrls; simpl.
  { split; [constructor | split; [| split; [done |]]]; by intros ? ?%elem_of_nil. }
  destruct (decide (url shot ∈ seenUrls)) as [Hin|Hnot].
  - destruct (IH seenUrls) as (Hnd & Hmem & Hsub & Hcov).
    split; [done | split; [| split]].
    + intros s Hs. apply Hmem in Hs as [? ?]. split; [done | by right].
    + by apply sublist_cons.
    + intros s [->|Hs]%elem_of_cons; [by left | by apply Hcov].
  - destruct (IH ({[url shot]} ∪ seenUrls)) as (Hnd & Hmem & Hsub & Hcov).
    split; [| split; [| split]].
    + rewrite fmap_cons. apply NoDup_cons. split; [|done].
      intros (s & Hs & Hin)%list_elem_of_fmap.
      apply Hmem in Hin as [Hin _]. apply Hin, elem_of_union. left.
      by apply elem_of_singleton.
    + intros s [->|Hs]%elem_of_cons; [split; [done | by left] |].
      apply Hmem in Hs as [Hs ?]. split; [| by right].
      intros ?. apply Hs, elem_of_union. by right.
    + by apply sublist_skip.
    + intros s [->|Hs]%elem_of_cons; [right; rewrite fmap_cons; by left |].
      destruct (Hcov s Hs) as [Hin|Hin]; [|right; rewrite fmap_cons; by right].
      apply elem_of_union in Hin as [Hin%elem_of_singleton|Hin]; [| by left].
      right. rewrite fmap_cons, Hin. by left.
Qed.

Lemma uniqueFrom_prefix (earlier results : list Shot) :
  uniqueFrom (list_to_set (url <$> earlier)) results
  = omap id
      (imap (λ i shot,
               if decide (url shot ∈ url <$> take (length earlier + i) (earlier ++ results))
               then None else Some shot)
         results).
Proof.
  revert earlier. induction results as [|shot rest IH]; intros earlier; [done |].
  rewrite imap_cons. cbn [uniqueFrom omap list_omap].
  rewrite Nat.add_0_r, take_app_length.
  assert (∀ (X : gset (list N)),
    (∀ u, u ∈ X ↔ u ∈ url <$> earlier ++ [shot]) →
    uniqueFrom X rest
    = omap id
        (imap ((λ i s,
                 if decide (url s ∈ url <$> take (length earlier + i)
                                            (earlier ++ shot :: rest))
                 then None else Some s) ∘ S) rest)) as Hrest.
  { intros X HX.
    assert (X = list_to_set (url <$> earlier ++ [shot])) as ->.
    { apply set_eq. intros u. by rewrite HX, elem_of_list_to_set. }
    rewrite IH. f_equal. apply imap_ext. intros i s _. simpl.
    rewrite length_app, <- (assoc_L (++)). simpl.
    by replace (length earlier + 1 + i) with (length earlier + S i) by lia. }
  destruct (decide (url shot ∈ list_to_set (url <$> earlier))) as [Hin|Hnot];
    destruct (decide (url shot ∈ url <$> earlier)) as [Hin'|Hnot'].
  - simpl. apply Hrest. intros u.
    rewrite fmap_app. simpl. rewrite elem_of_app, list_elem_of_singleton.
    split; [intros Hu; left; by apply elem_of_list_to_set in Hu |].
    intros [Hu| ->]; [by apply elem_of_list_to_set | done].
  - by apply elem_of_list_to_set in Hin.
  - exfalso. by apply Hnot, elem_of_list_to_set.
  - simpl. f_equal. apply Hrest. intros u.
    rewrite fmap_app. simpl.
    rewrite elem_of_app, list_elem_of_singleton, elem_of_union,
      elem_of_singleton, elem_of_list_to_set.
    tauto.
Qed.

Lemma uniqueResults_keepFirst (results : list Shot) :
  uniqueResults results = keepFirstOccurrences results.
Proof.
  exact (uniqueFrom_prefix [] results).
Qed.

End dedup.

Section trimming.
Import Js JsFacts.








End trimming.

Section extractor.
Context `{UnicodeCase}.
Import Js Extractor.

(** C2: the output of the extractor has no two records with the same
    url; it is the list of the first occurrences of each url among the
    records collected, in their order. *)
Theorem extractShots_unique (cfg : Heuristics) (videos : list Video) :
  NoDup (url <$> extractShots cfg videos)
  ∧ extractShots cfg videos = keepFirstOccurrences (collect cfg videos)
  ∧ extractShots cfg videos `sublist_of` collect cfg videos
  ∧ (∀ shot, shot ∈ collect cfg videos →
       url shot ∈ url <$> extractShots cfg videos).
Proof.
  unfold extractShots.
  destruct (uniqueFrom_spec ∅ (collect cfg videos)) as (Hnd & _ & Hsub & Hcov).
  repeat split; [done | apply uniqueResults_keepFirst | done |].
  intros shot Hs. destruct (Hcov shot Hs) as [Hin|Hin]; [| done].
  by apply not_elem_of_empty in Hin.
Qed.

Lemma extractVideo_Some cfg index v shot :
  extractVideo cfg index v = Some shot →
  url shot ≠ [] ∧ preview shot ≠ []
  ∧ (resolveShot cfg index v).2 = Some (url shot)
  ∧ resolvePreview v = Some (preview shot).
Proof.
  unfold extractVideo. destruct (resolveShot cfg index v) as [t u].
  destruct u as [[|c u]|]; destruct (resolvePreview v) as [[|d p]|];
    simpl; try done.
  by intros [= <-].
Qed.

Lemma extractVideo_None cfg index v :
  extractVideo cfg index v = None
  ↔ truthy (resolveShot cfg index v).2 = false
    ∨ truthy (resolvePreview v) = false.
Proof.
  unfold extractVideo. destruct (resolveShot cfg index v) as [t u].
  destruct u as [[|c u]|]; destruct (resolvePreview v) as [[|d p]|];
    simpl; intuition congruence.
Qed.

Lemma collect_elem cfg videos shot :
  shot ∈ collect cfg videos
  ↔ ∃ index v, videos !! index = Some v ∧ extractVideo cfg index v = Some shot.
Proof.
  unfold collect. rewrite list_elem_of_omap. split.
  - intros (o & (i & v & -> & Hv)%elem_of_lookup_imap & Ho). by exists i, v.
  - intros (i & v & Hv & Hs). exists (Some shot). split; [|done].
    apply elem_of_lookup_imap. exists i, v. by rewrite Hs.
Qed.

Lemma extractShots_elem cfg videos shot :
  shot ∈ extractShots cfg videos →
  ∃ index v, videos !! index = Some v ∧ extractVideo cfg index v = Some shot.
Proof.
  intros Hs. apply collect_elem.
  destruct (uniqueFrom_spec ∅ (collect cfg videos)) as (_ & Hmem & _).
  by apply Hmem.
Qed.

(** C1: every record of the extractor's output has a non-empty url and
    a non-empty preview URL and comes from a video element; a video
    element whose shot URL or preview URL is not resolved yields no
    record. *)
Theorem extractShots_complete (cfg : Heuristics) (videos : list Video) :
  (∀ shot, shot ∈ extractShots cfg videos →
     url shot ≠ [] ∧ preview shot ≠ []
     ∧ ∃ index v, videos !! index = Some v
                  ∧ extractVideo cfg index v = Some shot)
  ∧ (∀ index v,
       truthy (resolveShot cfg index v).2 = false
       ∨ truthy (resolvePreview v) = false
       ↔ extractVideo cfg index v = None).
Proof.
  split.
  - intros shot (index & v & Hv & Hs)%extractShots_elem.
    destruct (extractVideo_Some _ _ _ _ Hs) as (? & ? & _).
    split; [done | split; [done |]]. by exists index, v.
  - intros index v. symmetry. apply extractVideo_None.
Qed.

(** *** The anchors of the ancestor walk *)

Lemma walk_url cfg videoId levels shotTitle t u :
  walk cfg videoId levels shotTitle = (t, Some u) →
  ∃ el a, el ∈ levels ∧ a ∈ links el ∧ hrefOk cfg (href a) = true
          ∧ u = linkUrl videoId (href a).
Proof.
  revert shotTitle. induction levels as [|el up IH]; intros shotTitle; simpl;
    [done |].
  unfold findFirst.
  destruct (find _ (links el)) as [a|] eqn:Ha.
  - intros [= _ <-]. apply find_some in Ha as [Hin Hok].
    exists el, a. split; [by left |].
    split; [by apply list_elem_of_In | done].
  - intros (el' & a & ? & ?)%IH. exists el', a. split; [by right | done].
Qed.

Lemma hrefOk_primary h :
  hrefOk Primary.heuristics h = true
  ↔ includes (lit "/shots/") h = true
    ∧ includes (lit "filter") h = false
    ∧ includes (lit "watch") h = false
    ∧ 15 < length h.
Proof.
  unfold hrefOk. cbn [hrefExclusions Primary.heuristics forallb].
  rewrite !andb_true_iff, !negb_true_iff, bool_decide_eq_true.
  destruct h; simpl truthy; [simpl; split; [intros; lia | intuition lia] |].
  intuition done.
Qed.

Lemma hrefOk_serverless h :
  hrefOk Serverless.heuristics h = true
  ↔ includes (lit "/shots/") h = true
    ∧ includes (lit "filter") h = false
    ∧ 15 < length h.
Proof.
  unfold hrefOk. cbn [hrefExclusions Serverless.heuristics forallb].
  rewrite !andb_true_iff, !negb_true_iff, bool_decide_eq_true.
  destruct h; simpl truthy; [simpl; split; [intros; lia | intuition lia] |].
  intuition done.
Qed.

(** In the primary scraper an anchor is the permalink source only if
    its href holds the shot path, holds neither word and is longer than
    15, and a shot URL made by the walk embeds such an href. *)
Lemma primary_anchor_gate videoId levels shotTitle t u :
  walk Primary.heuristics videoId levels shotTitle = (t, Some u) →
  ∃ h, u = linkUrl videoId h
       ∧ includes (lit "/shots/") h = true
       ∧ includes (lit "filter") h = false
       ∧ includes (lit "watch") h = false
       ∧ 15 < length h.
Proof.
  intros (el & a & _ & _ & Hok & ->)%walk_url.
  exists (href a). split; [done |]. by apply hrefOk_primary.
Qed.

(** *** Titles *)











End extractor.

(** ** The load loop *)

Lemma continues_budget L a c cur prev :
  Stages.continues L a c cur prev = true → a < Stages.maxLoadAttempts L.
Proof. unfold Stages.continues. case_bool_decide; [done | lia]. Qed.

Section loader.
Context `{UnicodeCase}.
Import Stages.

Lemma continues_primary a c cur prev :
  continues Primary.loader a c cur prev
  = negb (stopsEarly c cur) && runsAgain 20 a c cur prev.
Proof.
  unfold continues, stopsEarly, runsAgain. simpl.
  destruct c; repeat case_bool_decide; simpl; try done; lia.
Qed.

Lemma continues_serverless a c cur prev :
  continues Serverless.loader a c cur prev
  = negb (stopsEarly c cur) && runsAgain 5 a c cur prev.
Proof.
  unfold continues, stopsEarly, runsAgain. simpl.
  destruct c; repeat case_bool_decide; simpl; try done; lia.
Qed.

Lemma continues_rule s a c cur prev :
  continues (loaderOf s) a c cur prev
  = negb (stopsEarly c cur)
    && runsAgain (maxLoadAttempts (loaderOf s)) a c cur prev.
Proof. destruct s; [apply continues_primary | apply continues_serverless]. Qed.

(** C5: in both scrapers an iteration of the load loop whose wait and
    count return ends the loop with success when no click occurred and
    the count is not zero; otherwise the loop runs again exactly when
    the budget (20, 5) is not exhausted and fewer than 3 attempts are
    done or a click occurred and the count grew. *)
Theorem loadLoop_continuation (s : Scraper) (b : Browser) (foundSelector : string)
    (currentCount loadAttempts : nat) :
  maxLoadAttempts (loaderOf PrimaryScraper) = 20
  ∧ maxLoadAttempts (loaderOf ServerlessScraper) = 5
  ∧ loadLoop (loaderOf s) b foundSelector currentCount loadAttempts
    = match waitAt b loadAttempts with
      | Thrown e => Thrown e
      | Returned _ =>
          match countAt b loadAttempts foundSelector with
          | Thrown e => Thrown e
          | Returned count =>
              let clicked :=
                clickLoadButton b (keywords (loaderOf s))
                  (buttonSelectors (loaderOf s)) loadAttempts in
              if stopsEarly clicked count then Returned (count, S loadAttempts)
              else if runsAgain (maxLoadAttempts (loaderOf s)) (S loadAttempts)
                        clicked count currentCount
              then loadLoop (loaderOf s) b foundSelector count (S loadAttempts)
              else Returned (count, S loadAttempts)
          end
      end.
Proof.
  split; [done | split; [done |]].
  rewrite loadLoop_equation_1. cbv zeta.
  destruct (waitAt b loadAttempts); [|done].
  destruct (countAt b loadAttempts foundSelector) as [count|]; [|done].
  rewrite continues_rule.
  destruct (stopsEarly _ count); simpl.
  - by destruct (decide (false = true)).
  - destruct (runsAgain _ _ _ _ _); by destruct (decide _).
Qed.

(** The loop returns with at most [maxLoadAttempts] attempts. *)
Lemma loadLoop_bounded L b sel cur att count attempts :
  att < maxLoadAttempts L →
  loadLoop L b sel cur att = Returned (count, attempts) →
  att < attempts ≤ maxLoadAttempts L.
Proof.
  funelim (loadLoop L b sel cur att). intros Hatt.
  match goal with IH : () → _ |- _ => rename IH into IHloop end.
  destruct (waitAt b loadAttempts); [|done].
  destruct (countAt b loadAttempts foundSelector) as [c|]; [|done].
  destruct (decide _) as [Hc|Hc].
  - intros Hr. apply continues_budget in Hc as Hlt.
    specialize (IHloop () c Hc count attempts Hlt Hr). lia.
  - intros [= <- <-]. lia.
Qed.

End loader.

(** ** The run as a whole *)

Section run.
Context `{UnicodeCase}.
Import Stages.





(** The serverless scraper never leaves the browser running when
    closing it succeeds. *)
Lemma serverless_releases b :
  close b = Returned () → (Serverless.scrape60fps b NotLaunched).2 ≠ Running.
Proof.
  intros Hx. unfold Serverless.scrape60fps, tryCatchFinally, andThen,
    launchBrowser, closeBrowser, Serverless.closeIfLaunched, lift.
  destruct (launch b); simpl; [|done].
  destruct (newContext b); simpl; unfold closeBrowser; [|by rewrite Hx].
  destruct (newPage b); simpl; unfold closeBrowser; [|by rewrite Hx].
  destruct (Serverless.scrapeBody b); simpl; unfold closeBrowser; by rewrite Hx.
Qed.

(** The primary scraper closes the browser once the page was opened. *)
Lemma primary_releases_after_page b :
  launch b = Returned () → newContext b = Returned () → newPage b = Returned () →
  close b = Returned () → (Primary.scrape60fps b NotLaunched).2 = Closed.
Proof.
  intros Hl Hc Hp Hx. unfold Primary.scrape60fps, tryCatchFinally, andThen,
    launchBrowser, closeBrowser, lift.
  rewrite Hl, Hc, Hp. simpl.
  destruct (Primary.scrapeBody b); simpl; unfold closeBrowser; by rewrite Hx.
Qed.

(** C8: when [browser.newContext] rejects, the primary scraper lets the
    error escape with the launched browser still running; the serverless
    scraper closes it and returns its fallback list. *)
Theorem primary_leaves_browser_running :
  Primary.scrape60fps contextFails NotLaunched
  = (Thrown "browser.newContext: Target page, context or browser has been closed",
     Running)
  ∧ Serverless.scrape60fps contextFails NotLaunched
    = (Returned Serverless.mockData, Closed).
Proof. split; reflexivity. Qed.

End run.


Section cli.
Context `{UnicodeCase} `{NumberConversion}.
Import Js Cli.









End cli.



(** The HTTP handler does not read the query: with [limit=2] it answers
    with the three fallback rows when the navigation fails. *)
Lemma handler_ignores_limit :
  (∀ `{UnicodeCase} m q1 q2 b nowIso,
     Http.handler {| Http.method := m; Http.query := q1 |} b nowIso
     = Http.handler {| Http.method := m; Http.query := q2 |} b nowIso)
  ∧ @Http.handler asciiCase
      {| Http.method := "GET"; Http.query := [("limit"%string, lit "2")] |}
      gotoFails runTime
    = {| Http.status := 200;
         Http.body := Http.Rows (@Format.formatRow asciiCase runTime
                                   <$> Serverless.mockData) |}.
Proof. split; [done | by vm_compute]. Qed.

(** ** Titles of the formatted rows *)

Section titles.
Context `{UnicodeCase}.
Import Js.

Lemma splitGo_absent sep acc s :
  includes sep s = false → splitGo sep 0 acc s = [reverse acc ++ s].
Proof.
  revert acc. induction s as [|c s IH]; intros acc Hs.
  - simpl. by rewrite app_nil_r.
  - cbn [includes] in Hs. apply orb_false_iff in Hs as [Hp Hs].
    cbn [splitGo]. rewrite Hp, (IH _ Hs), reverse_cons.
    by rewrite <- (assoc_L (++)).
Qed.






Lemma body_returns s b shots :
  bodyOf s b = Returned shots →
  ∃ videos, evaluate b = Returned videos
            ∧ shots = Extractor.extractShots (heuristicsOf s) videos.
Proof.
  destruct s; unfold bodyOf, Primary.scrapeBody, Serverless.scrapeBody;
    match goal with
    | |- context [Stages.detect b ?l] =>
        generalize (Stages.detect b l); intros d
    end;
    (destruct (goto b); simpl; [|done]);
    (destruct (settle b); simpl; [|done]);
    destruct d as [[sel n]|]; simpl.
  - destruct (Stages.loadLoop _ _ _ _ _); simpl; [|done].
    destruct (evaluate b) as [videos|]; simpl; [|done].
    intros [= <-]. by exists videos.
  - destruct (pageTitle b); simpl; [|done]. by destruct (_ || _).
  - destruct (Stages.loadLoop _ _ _ _ _); simpl; [|done].
    destruct (evaluate b) as [videos|]; simpl; [|done].
    intros [= <-]. by exists videos.
  - done.
Qed.

Lemma run_returns s b shots :
  (run s b).1 = Returned shots →
  shots = fallbackSet s
  ∨ ∃ videos, shots = Extractor.extractShots (heuristicsOf s) videos.
Proof.
  pose proof (body_returns s b) as Hbody.
  destruct s; unfold run, Primary.scrape60fps, Serverless.scrape60fps,
    tryCatchFinally, andThen, launchBrowser, closeBrowser,
    Serverless.closeIfLaunched, lift; simpl in Hbody.
  - destruct (launch b); simpl; [|done].
    destruct (newContext b); simpl; [|done].
    destruct (newPage b); simpl; [|done].
    destruct (Primary.scrapeBody b) as [r|]; simpl; unfold closeBrowser;
      destruct (close b); simpl; try done.
    + intros [= <-]. right. destruct (Hbody r eq_refl) as (videos & _ & ->).
      by exists videos.
    + intros [= <-]. by left.
  - destruct (launch b); simpl; [|intros [= <-]; by left].
    destruct (newContext b); simpl; unfold closeBrowser;
      [|destruct (close b); simpl; [intros [= <-]; by left | done]].
    destruct (newPage b); simpl; unfold closeBrowser;
      [|destruct (close b); simpl; [intros [= <-]; by left | done]].
    destruct (Serverless.scrapeBody b) as [r|]; simpl; unfold closeBrowser;
      destruct (close b); simpl; try done.
    + intros [= <-]. right. destruct (Hbody r eq_refl) as (videos & _ & ->).
      by exists videos.
    + intros [= <-]. by left.
Qed.




End titles.

(** ** Runs on concrete pages *)

Section examples.
Context `{UnicodeCase}.

(** C6: the serverless extractor accepts an anchor whose href holds
    [watch] and makes the shot URL from it; the primary extractor
    rejects that anchor. *)
Theorem serverless_accepts_watch_href :
  Js.includes (lit "watch") (lit "/shots/watch-later-demo") = true
  ∧ Extractor.hrefOk Serverless.heuristics (lit "/shots/watch-later-demo") = true
  ∧ Extractor.hrefOk Primary.heuristics (lit "/shots/watch-later-demo") = false
  ∧ Extractor.extractShots Serverless.heuristics [watchVideo]
    = [{| url := lit "https://60fps.design/shots/watch-later-demo";
          preview := lit "https://cdn.60fps.design/previews/watch-later.mp4";
          title := Some (lit "Watch later demo") |}]
  ∧ Extractor.extractShots Primary.heuristics [watchVideo] = [].
Proof. repeat split; by vm_compute. Qed.

Example scenario_one s :
  Extractor.extractShots (heuristicsOf s) [demoVideo]
  = [{| url := lit "https://60fps.design/shots/demo-swipe?video=abc12345";
        preview := lit "https://video.gumlet.io/bucket1/abc12345/main.mp4";
        title := Some (lit "Demo Swipe") |}].
Proof. destruct s; by vm_compute. Qed.

Example scenario_two s :
  length (Extractor.collect (heuristicsOf s) [demoVideo; demoVideo]) = 2
  ∧ length (Extractor.extractShots (heuristicsOf s) [demoVideo; demoVideo]) = 1.
Proof. destruct s; by vm_compute. Qed.

Example scenario_page s :
  run s (stillPage [demoVideo; watchVideo; demoVideo])
  = (Returned (Extractor.extractShots (heuristicsOf s) [demoVideo; watchVideo; demoVideo]),
     Closed).
Proof. destruct s; by vm_compute. Qed.

End examples.

(** ** When scrape60fps throws, and what it returns *)

Section outcome.
Context `{UnicodeCase}.
Import Stages.

Lemma detect_spec b selectors :
  match detect b selectors with
  | Some (selector, contentCount) =>
      ∃ before after, selectors = before ++ selector :: after
        ∧ Forall (noSignal b) before
        ∧ detectCount b selector = Returned contentCount ∧ 0 < contentCount
  | None => Forall (noSignal b) selectors
  end.
Proof.
  induction selectors as [|selector rest IH]; simpl; [constructor |].
  destruct (detectCount b selector) as [n|e] eqn:Hn.
  - case_bool_decide as Hpos.
    + exists [], rest. by repeat split.
    + assert (noSignal b selector) as Hno.
      { intros m Hm. rewrite Hn in Hm. injection Hm as <-. lia. }
      destruct (detect b rest) as [[sel n']|].
      * destruct IH as (before & after & -> & Hb & Hs & Hp).
        exists (selector :: before), after. repeat split; [by constructor | done..].
      * by constructor.
  - assert (noSignal b selector) as Hno.
    { intros m Hm. by rewrite Hn in Hm. }
    destruct (detect b rest) as [[sel n']|].
    + destruct IH as (before & after & -> & Hb & Hs & Hp).
      exists (selector :: before), after. repeat split; [by constructor | done..].
    + by constructor.
Qed.

(** X1 (detector): the selector found is the first of the list whose
    count returns a positive number; every selector before it has count
    zero or throws; none is found exactly when that holds of all. *)
Theorem detect_first_signal (s : Scraper) (b : Browser) :
  match detect b (selectorsOf s) with
  | Some (selector, contentCount) =>
      ∃ before after, selectorsOf s = before ++ selector :: after
        ∧ Forall (noSignal b) before
        ∧ detectCount b selector = Returned contentCount ∧ 0 < contentCount
  | None => Forall (noSignal b) (selectorsOf s)
  end.
Proof. apply detect_spec. Qed.

Lemma primary_throws b e :
  (Primary.scrape60fps b NotLaunched).1 = Thrown e ↔ sessionRejects b e.
Proof.
  unfold sessionRejects, Primary.scrape60fps, tryCatchFinally, andThen, launchBrowser,
    closeBrowser, lift.
  destruct (launch b) as [[]|e1]; simpl; [|intuition congruence].
  destruct (newContext b) as [[]|e2]; simpl; [|intuition congruence].
  destruct (newPage b) as [[]|e3]; simpl; [|intuition congruence].
  destruct (Primary.scrapeBody b); simpl; unfold closeBrowser;
    destruct (close b) as [[]|e4]; simpl; intuition congruence.
Qed.

Lemma serverless_throws b e :
  (Serverless.scrape60fps b NotLaunched).1 = Thrown e
  ↔ launch b = Returned () ∧ close b = Thrown e.
Proof.
  unfold Serverless.scrape60fps, tryCatchFinally, andThen, launchBrowser,
    closeBrowser, Serverless.closeIfLaunched, lift.
  destruct (launch b) as [[]|e1]; simpl; [|intuition congruence].
  destruct (newContext b) as [[]|e2]; simpl; unfold closeBrowser;
    [|destruct (close b) as [[]|e4]; simpl; intuition congruence].
  destruct (newPage b) as [[]|e3]; simpl; unfold closeBrowser;
    [|destruct (close b) as [[]|e4]; simpl; intuition congruence].
  destruct (Serverless.scrapeBody b); simpl; unfold closeBrowser;
    destruct (close b) as [[]|e4]; simpl; intuition congruence.
Qed.

(** X2 (when scrape60fps throws): the primary scraper throws exactly
    when the launch, the context, the page or the final close rejects,
    with that error; the serverless one exactly when the browser was
    launched and the final close rejects. An error of any other stage
    never escapes. *)
Theorem scrape60fps_throws (b : Browser) (e : Error) :
  ((run PrimaryScraper b).1 = Thrown e ↔ sessionRejects b e)
  ∧ ((run ServerlessScraper b).1 = Thrown e
     ↔ launch b = Returned () ∧ close b = Thrown e).
Proof. split; [apply primary_throws | apply serverless_throws]. Qed.

(** X3 (success path): when every stage returns, [scrape60fps] returns
    the extractor's list for the page as it is, and closes the browser;
    an empty extraction is returned empty, the fallback list is not
    substituted for it. *)
Theorem run_success (s : Scraper) (b : Browser) (foundSelector : string)
    (contentCount count attempts : nat) (videos : list Video) :
  launch b = Returned () → newContext b = Returned () → newPage b = Returned () →
  goto b = Returned () → settle b = Returned () →
  detect b (selectorsOf s) = Some (foundSelector, contentCount) →
  loadLoop (loaderOf s) b foundSelector 0 0 = Returned (count, attempts) →
  evaluate b = Returned videos → close b = Returned () →
  run s b = (Returned (Extractor.extractShots (heuristicsOf s) videos), Closed).
Proof.
  intros Hl Hc Hp Hg Hs Hd Hloop He Hx.
  destruct s; cbn [selectorsOf loaderOf] in Hd, Hloop;
    unfold run, Primary.scrape60fps, Serverless.scrape60fps,
      Primary.scrapeBody, Serverless.scrapeBody, tryCatchFinally, andThen,
      launchBrowser, closeBrowser, Serverless.closeIfLaunched, lift;
    rewrite Hl, Hc, Hp, Hg, Hs; cbn [mbind outcome_bind];
    rewrite Hd, Hloop; cbn [mbind outcome_bind]; rewrite He;
    simpl; unfold closeBrowser; by rewrite Hx.
Qed.

(** X4 (HTTP handler): a preflight is answered 200 without a body; any
    other request is answered 200 with one row for each record of
    [scrape60fps], none dropped, or 500, and 500 exactly when the
    browser was launched and closing it rejects. *)
Theorem handler_status (req : Http.Request) (b : Browser) (nowIso : jsstring) :
  (if String.eqb (Http.method req) "OPTIONS"
   then Http.handler req b nowIso = {| Http.status := 200; Http.body := Http.Empty |}
   else
     (Http.status (Http.handler req b nowIso) = 500
      ↔ launch b = Returned () ∧ ∃ e, close b = Thrown e)
     ∧ match (run ServerlessScraper b).1 with
       | Returned shots =>
           Http.handler req b nowIso
           = {| Http.status := 200;
                Http.body := Http.Rows (Format.formatRow nowIso <$> shots) |}
       | Thrown e => Http.status (Http.handler req b nowIso) = 500
       end).
Proof.
  unfold Http.handler. destruct (String.eqb (Http.method req) "OPTIONS"); [done |].
  simpl run.
  destruct ((Serverless.scrape60fps b NotLaunched).1) as [shots|e] eqn:Hr; simpl.
  - split; [|done]. split; [done |]. intros (Hl & e & He).
    assert ((Serverless.scrape60fps b NotLaunched).1 = Thrown e) as Ht
      by (by apply serverless_throws).
    by rewrite Hr in Ht.
  - split; [|done]. split; [|done]. intros _.
    apply serverless_throws in Hr as [? ?]. eauto.
Qed.

(** X5 (entry points): [main] of the scraper and the command line
    wrapper end in failure exactly when the launch, the context, the
    page or the final close rejects, with that error; a failure of the
    site or of the extraction never makes the process fail. *)
Theorem entry_points_fail `{NumberConversion} (argv : list jsstring)
    (envLIMIT : option jsstring) (b : Browser) (nowIso : jsstring) (e : Error) :
  (PrimaryMain.main b = PrimaryMain.Fatal e ↔ sessionRejects b e)
  ∧ (Cli.main argv envLIMIT b nowIso = Cli.Failure e ↔ sessionRejects b e).
Proof.
  rewrite <- primary_throws. unfold PrimaryMain.main, Cli.main.
  destruct ((Primary.scrape60fps b NotLaunched).1); split; split; congruence.
Qed.

End outcome.

(** An empty extraction on a page where only links were found. *)
Lemma run_success_witness :
  @run asciiCase ServerlessScraper linksOnlyPage = (Returned [], Closed).
Proof.
  apply (@run_success asciiCase ServerlessScraper linksOnlyPage
           "a[href^='/shots/']" 4 4 1 []); reflexivity.
Defined.

(** ** More on the load loop *)

Section loop.
Context `{UnicodeCase}.
Import Stages.

Lemma loadLoop_total L b sel cur att :
  att < maxLoadAttempts L →
  (∀ i, att ≤ i < maxLoadAttempts L → waitAt b i = Returned ()) →
  (∀ i, att ≤ i < maxLoadAttempts L → ∃ n, countAt b i sel = Returned n) →
  ∃ count attempts, loadLoop L b sel cur att = Returned (count, attempts).
Proof.
  funelim (loadLoop L b sel cur att). intros Hatt Hwait Hcount.
  match goal with IH : () → _ |- _ => rename IH into IHloop end.
  rewrite (Hwait loadAttempts) by lia.
  destruct (Hcount loadAttempts) as [n ->]; [lia |].
  destruct (decide _) as [Hc|Hc]; [|by eauto].
  apply continues_budget in Hc as Hlt.
  apply (IHloop () n Hc Hlt).
  - intros i Hi. apply Hwait. lia.
  - intros i Hi. apply Hcount. lia.
Qed.

Lemma loadLoop_last L b sel cur att count attempts :
  loadLoop L b sel cur att = Returned (count, attempts) →
  ∃ previous,
    (attempts = S att ∧ previous = cur
     ∨ S att < attempts ∧ countAt b (attempts - 2) sel = Returned previous)
    ∧ countAt b (attempts - 1) sel = Returned count
    ∧ continues L attempts
        (clickLoadButton b (keywords L) (buttonSelectors L) (attempts - 1))
        count previous = false.
Proof.
  funelim (loadLoop L b sel cur att).
  match goal with IH : () → _ |- _ => rename IH into IHloop end.
  destruct (waitAt b loadAttempts); [|done].
  destruct (countAt b loadAttempts foundSelector) as [n|] eqn:Hn; [|done].
  destruct (decide _) as [Hc|Hc].
  - intros Hr.
    pose proof (loadLoop_bounded L b foundSelector n (S loadAttempts) count attempts
                  (continues_budget _ _ _ _ _ Hc) Hr) as Hb.
    destruct (IHloop () n Hc count attempts Hr)
      as (previous & [[-> ->]|[Hlt Hprev]] & Hcount & Hstop).
    + exists n. split; [|done]. right. split; [lia |].
      by replace (S (S loadAttempts) - 2) with loadAttempts by lia.
    + exists previous. split; [|done]. right. split; [lia | done].
  - intros [= <- <-]. exists currentCount.
    replace (S loadAttempts - 1) with loadAttempts by lia.
    split; [by left | split; [done |]].
    by destruct (continues _ _ _ _ _).
Qed.

(** X6 (the loop returns): when the waits and the counts of the
    iterations within the budget return, the load loop returns, after at
    least one and at most [maxLoadAttempts] attempts, with the count of
    its last iteration; exhausting the budget is no error. *)
Theorem loadLoop_returns (s : Scraper) (b : Browser) (foundSelector : string) :
  (∀ i, i < maxLoadAttempts (loaderOf s) → waitAt b i = Returned ()) →
  (∀ i, i < maxLoadAttempts (loaderOf s) →
        ∃ n, countAt b i foundSelector = Returned n) →
  ∃ count attempts,
    loadLoop (loaderOf s) b foundSelector 0 0 = Returned (count, attempts)
    ∧ 1 ≤ attempts ≤ maxLoadAttempts (loaderOf s)
    ∧ countAt b (attempts - 1) foundSelector = Returned count.
Proof.
  intros Hwait Hcount.
  assert (0 < maxLoadAttempts (loaderOf s)) as Hpos by (destruct s; simpl; lia).
  destruct (loadLoop_total (loaderOf s) b foundSelector 0 0 Hpos)
    as (count & attempts & Hr).
  { intros i [_ Hi]. by apply Hwait. }
  { intros i [_ Hi]. by apply Hcount. }
  exists count, attempts. split; [done |].
  split; [apply (loadLoop_bounded _ _ _ _ _ _ _ Hpos Hr) |].
  by destruct (loadLoop_last _ _ _ _ _ _ _ Hr) as (? & _ & ? & _).
Qed.

(** X7 (why the loop stops): when the load loop returns, its last
    iteration exhausted the budget, or found no button to click with a
    count above zero, or was at least the third and either clicked no
    button or did not raise the count over that of the iteration before. *)
Theorem loadLoop_stop_reason (s : Scraper) (b : Browser) (foundSelector : string)
    (count attempts : nat) :
  loadLoop (loaderOf s) b foundSelector 0 0 = Returned (count, attempts) →
  ∃ previous,
    (attempts = 1 ∧ previous = 0
     ∨ 1 < attempts ∧ countAt b (attempts - 2) foundSelector = Returned previous)
    ∧ let clicked :=
        clickLoadButton b (keywords (loaderOf s)) (buttonSelectors (loaderOf s))
          (attempts - 1) in
      attempts = maxLoadAttempts (loaderOf s)
      ∨ (clicked = false ∧ 0 < count)
      ∨ (3 ≤ attempts ∧ (clicked = false ∨ count ≤ previous)).
Proof.
  intros Hr.
  assert (0 < maxLoadAttempts (loaderOf s)) as Hpos by (destruct s; simpl; lia).
  pose proof (loadLoop_bounded _ _ _ _ _ _ _ Hpos Hr) as Hb.
  destruct (loadLoop_last _ _ _ _ _ _ _ Hr) as (previous & Hprev & _ & Hstop).
  exists previous. split; [done |]. cbv zeta.
  rewrite continues_rule in Hstop. unfold stopsEarly, runsAgain in Hstop.
  destruct (clickLoadButton _ _ _ _); simpl in Hstop;
    repeat case_bool_decide; simpl in Hstop; try done;
    first [left; lia | right; left; split; [done | lia]
          | right; right; split; [lia | first [by left | right; lia]]].
Qed.

(** *** The search for a load button *)

Lemma scanButtons_sound kws buttons :
  scanButtons kws buttons = true →
  ∃ button text,
    button ∈ buttons ∧ textContent button = Returned (Some text)
    ∧ isVisible button = Returned true ∧ text ≠ []
    ∧ textSuggestsLoad kws text = true ∧ click button = Returned ().
Proof.
  induction buttons as [|button rest IH]; simpl; [done |].
  destruct (textContent button) as [text|] eqn:Ht; [|done].
  destruct (isVisible button) as [visible|] eqn:Hv; [|done].
  destruct (visible && Js.truthy text && _) eqn:Hq.
  - destruct (click button) as [[]|] eqn:Hc; [|done]. intros _.
    apply andb_true_iff in Hq as [[-> Htruthy]%andb_true_iff Hkw].
    destruct text as [[|c text]|]; [done | | done].
    exists button, (c :: text). repeat split; [by left | done..].
  - intros (button' & text' & ? & ?)%IH. exists button', text'.
    split; [by right | done].
Qed.

(** X8 (a click is real): the loop records a click only when, under one
    of its selectors, a button that is visible and whose text holds one
    of the key words, in any case of letters, was clicked and the click
    returned. *)
Theorem clickLoadButton_sound (b : Browser) (L : Loader) (loadAttempts : nat) :
  clickLoadButton b (keywords L) (buttonSelectors L) loadAttempts = true →
  ∃ selector buttons button text,
    selector ∈ buttonSelectors L
    ∧ buttonsAt b loadAttempts selector = Returned buttons
    ∧ button ∈ buttons
    ∧ textContent button = Returned (Some text)
    ∧ isVisible button = Returned true
    ∧ existsb (λ w, Js.includes w (Js.toLowerCase text)) (keywords L) = true
    ∧ click button = Returned ().
Proof.
  unfold clickLoadButton. intros (selector & Hin & Hs)%existsb_exists.
  destruct (buttonsAt b loadAttempts selector) as [buttons|] eqn:Hb; [|done].
  apply scanButtons_sound in Hs as (button & text & ? & ? & ? & _ & ? & ?).
  exists selector, buttons, button, text.
  split; [by apply list_elem_of_In | done].
Qed.

End loop.

(** The loop on a page without load button: one attempt. *)
Lemma loadLoop_returns_witness :
  ∃ count attempts,
    @Stages.loadLoop asciiCase (loaderOf PrimaryScraper) linksOnlyPage "video" 0 0
    = Returned (count, attempts)
    ∧ 1 ≤ attempts ≤ Stages.maxLoadAttempts (loaderOf PrimaryScraper)
    ∧ countAt linksOnlyPage (attempts - 1) "video" = Returned count.
Proof.
  apply (@loadLoop_returns asciiCase PrimaryScraper linksOnlyPage "video").
  - intros i _. reflexivity.
  - intros i _. exists 4. reflexivity.
Defined.

(** The loop on the page with a [Load more] button stops at its fifth
    attempt, the first whose click does not raise the count. *)
Lemma loadLoop_stop_reason_witness :
  ∃ previous,
    (5 = 1 ∧ previous = 0
     ∨ 1 < 5 ∧ countAt loadMorePage (5 - 2) "video" = Returned previous)
    ∧ let clicked :=
        @Stages.clickLoadButton asciiCase loadMorePage
          (Stages.keywords (loaderOf PrimaryScraper))
          (Stages.buttonSelectors (loaderOf PrimaryScraper)) (5 - 1) in
      5 = Stages.maxLoadAttempts (loaderOf PrimaryScraper)
      ∨ (clicked = false ∧ 0 < 8)
      ∨ (3 ≤ 5 ∧ (clicked = false ∨ 8 ≤ previous)).
Proof.
  apply (@loadLoop_stop_reason asciiCase PrimaryScraper loadMorePage "video" 8 5).
  by vm_compute.
Defined.

Lemma clickLoadButton_sound_witness :
  ∃ selector buttons button text,
    selector ∈ Stages.buttonSelectors Primary.loader
    ∧ buttonsAt loadMorePage 0 selector = Returned buttons
    ∧ button ∈ buttons
    ∧ textContent button = Returned (Some text)
    ∧ isVisible button = Returned true
    ∧ existsb (λ w, Js.includes w (@Js.toLowerCase asciiCase text))
        (Stages.keywords Primary.loader) = true
    ∧ click button = Returned ().
Proof.
  apply (@clickLoadButton_sound asciiCase loadMorePage Primary.loader 0).
  by vm_compute.
Defined.

(** ** More facts on strings *)

Section strings.
Import Js.

Lemma startsWith_prefix p s : startsWith p s = true ↔ p `prefix_of` s.
Proof.
  revert s. induction p as [|a p IH]; intros s; simpl.
  - split; [intros _; apply prefix_nil | done].
  - destruct s as [|b s]; [split; [done | by intros ?%prefix_nil_not] |].
    rewrite andb_true_iff, N.eqb_eq, IH. split.
    + intros [-> Hp]. by apply prefix_cons.
    + intros [k Hk]. injection Hk as -> ->. split; [done | by exists k].
Qed.

Lemma startsWith_app p s : startsWith p (p ++ s) = true.
Proof. apply startsWith_prefix. by exists s. Qed.

Lemma includes_startsWith p s : startsWith p s = true → includes p s = true.
Proof. intros Hp. destruct s; simpl; by rewrite Hp. Qed.

Lemma includes_app a p b : includes p (a ++ p ++ b) = true.
Proof.
  induction a as [|c a IH].
  - change ([] ++ ?x) with x. apply includes_startsWith, startsWith_app.
  - change ((c :: a) ++ ?x) with (c :: (a ++ x)). cbn [includes].
    rewrite IH. apply orb_true_r.
Qed.

Lemma includes_split p s :
  includes p s = true → ∃ a b, s = a ++ p ++ b.
Proof.
  induction s as [|c s IH]; simpl.
  - rewrite orb_false_r. intros [k ->]%startsWith_prefix. by exists [], k.
  - intros [[k ->]%startsWith_prefix|(a & b & ->)%IH]%orb_true_iff.
    + by exists [], k.
    + by exists (c :: a), b.
Qed.

End strings.

(** ** The video id *)

Section videoId.
Import Js Extractor.

Lemma notSlash_ne c : notSlash c = true ↔ c ≠ slash.
Proof. unfold notSlash. rewrite negb_true_iff. apply N.eqb_neq. Qed.

Lemma takeWhile_split p s :
  ∃ r, s = takeWhile p s ++ r ∧ drop (length (takeWhile p s)) s = r
       ∧ Forall (λ c, p c = true) (takeWhile p s)
       ∧ (r = [] ∨ ∃ c r', r = c :: r' ∧ p c = false).
Proof.
  induction s as [|c s IH]; simpl.
  - exists []. repeat split; [constructor | by left].
  - destruct (p c) eqn:Hc.
    + destruct IH as (r & Hs & Hd & Hall & Hr). exists r. simpl.
      repeat split; [by f_equal | done | by constructor | done].
    + exists (c :: s). repeat split; [constructor | right; eauto].
Qed.

Lemma takeWhile_app p a c r :
  Forall (λ c, p c = true) a → p c = false →
  takeWhile p (a ++ c :: r) = a.
Proof.
  intros Ha Hc. induction Ha as [|x a Hx _ IH]; simpl; [by rewrite Hc |].
  by rewrite Hx, IH.
Qed.

Lemma gumletAt_sound s id :
  gumletAt s = Some id →
  ∃ bucket after,
    s = bucket ++ slash :: id ++ after
    ∧ bucket ≠ [] ∧ Forall (λ c, c ≠ slash) bucket
    ∧ id ≠ [] ∧ Forall (λ c, c ≠ slash) id
    ∧ (after = [] ∨ ∃ r, after = slash :: r).
Proof.
  unfold gumletAt. cbv zeta.
  destruct (takeWhile_split notSlash s) as (r & Hs & Hd & Hb & Hr).
  destruct (takeWhile notSlash s) as [|b bucket] eqn:Ht; [done |].
  rewrite Hd. clear Hd.
  destruct Hr as [->|(c & rest & -> & Hc)]; [done |].
  destruct (takeWhile_split notSlash rest) as (r' & Hrest & _ & Hid & Hr').
  destruct (takeWhile notSlash rest) as [|i id'] eqn:Hi; [done |].
  intros [= <-]. exists (b :: bucket), r'.
  assert (c = slash) as ->.
  { apply dec_stable. intros Hne%notSlash_ne. congruence. }
  split; [by rewrite Hs, Hrest |].
  split; [done |].
  split; [eapply Forall_impl; [exact Hb | intros ? ?; by apply notSlash_ne] |].
  split; [done |].
  split; [eapply Forall_impl; [exact Hid | intros ? ?; by apply notSlash_ne] |].
  destruct Hr' as [->|(c' & r'' & -> & Hc')]; [by left | right].
  exists r''. f_equal. apply dec_stable. intros Hne%notSlash_ne. congruence.
Qed.

Lemma gumletAt_complete bucket c after :
  bucket ≠ [] → Forall (λ c, c ≠ slash) bucket → c ≠ slash →
  gumletAt (bucket ++ slash :: c :: after) ≠ None.
Proof.
  intros Hne Hb Hc. unfold gumletAt. cbv zeta.
  rewrite takeWhile_app;
    [| eapply Forall_impl; [exact Hb | intros ? ?; by apply notSlash_ne]
     | by apply negb_false_iff, N.eqb_eq].
  destruct bucket as [|b bucket]; [done |].
  rewrite drop_app_length.
  simpl. apply notSlash_ne in Hc. by rewrite Hc.
Qed.

Lemma gumletMatch_sound s id :
  gumletMatch s = Some id →
  ∃ before rest, s = before ++ lit "video.gumlet.io/" ++ rest
                 ∧ gumletAt rest = Some id.
Proof.
  induction s as [|c s IH].
  - simpl. done.
  - cbn [gumletMatch].
    destruct (startsWith (lit "video.gumlet.io/") (c :: s)) eqn:Hp.
    + destruct (gumletAt (drop 16 (c :: s))) as [id'|] eqn:Hat.
      * intros [= <-]. apply startsWith_prefix in Hp as [k Hk].
        exists [], k. split; [done |].
        rewrite Hk in Hat. by rewrite (drop_app_length' _ _ 16) in Hat.
      * intros (before & rest & -> & ?)%IH. by exists (c :: before), rest.
    + intros (before & rest & -> & ?)%IH. by exists (c :: before), rest.
Qed.

Lemma gumletMatch_complete before rest :
  gumletAt rest ≠ None →
  gumletMatch (before ++ lit "video.gumlet.io/" ++ rest) ≠ None.
Proof.
  intros Hat. induction before as [|c before IH].
  - change ([] ++ ?x) with x. destruct (lit "video.gumlet.io/" ++ rest) eqn:E;
      [done |]. rewrite <- E. clear E.
    assert (∀ s, s = lit "video.gumlet.io/" ++ rest → gumletMatch s ≠ None) as Hs.
    { intros s ->. destruct (lit "video.gumlet.io/" ++ rest) as [|x s] eqn:E;
        [done |].
      cbn [gumletMatch]. rewrite <- E, startsWith_app.
      rewrite (drop_app_length' _ _ 16) by done.
      by destruct (gumletAt rest). }
    by apply Hs.
  - change ((c :: before) ++ ?x) with (c :: (before ++ x)).
    cbn [gumletMatch].
    destruct (if startsWith _ _ then _ else _); [done | exact IH].
Qed.

(** X9 (video id): the id taken from a preview URL is the non-empty
    run without [/] that follows [video.gumlet.io/], a non-empty bucket
    without [/] and a [/]; there is none exactly when the URL has no
    such place. *)
Theorem extractVideoId_spec (previewUrl : jsstring) :
  match extractVideoId (Some previewUrl) with
  | Some videoId =>
      ∃ before bucket after,
        previewUrl
        = before ++ lit "video.gumlet.io/" ++ bucket ++ slash :: videoId ++ after
        ∧ bucket ≠ [] ∧ Forall (λ c, c ≠ slash) bucket
        ∧ videoId ≠ [] ∧ Forall (λ c, c ≠ slash) videoId
        ∧ (after = [] ∨ ∃ r, after = slash :: r)
  | None =>
      ∀ before bucket c after,
        previewUrl
        = before ++ lit "video.gumlet.io/" ++ bucket ++ slash :: c :: after →
        bucket ≠ [] → Forall (λ c, c ≠ slash) bucket → c = slash
  end.
Proof.
  unfold extractVideoId.
  destruct (truthy (Some previewUrl) && includes (lit "video.gumlet.io") previewUrl)
    eqn:Hcond.
  - destruct (gumletMatch previewUrl) as [id|] eqn:Hm.
    + apply gumletMatch_sound in Hm as (before & rest & -> & Hat).
      apply gumletAt_sound in Hat as (bucket & after & -> & ?).
      by exists before, bucket, after.
    + intros before bucket c after -> Hne Hb. apply dec_stable. intros Hc.
      by apply (gumletMatch_complete before (bucket ++ slash :: c :: after)
                  (gumletAt_complete bucket c after Hne Hb Hc)).
  - intros before bucket c after -> Hne Hb. exfalso.
    apply andb_false_iff in Hcond as [Hcond|Hcond].
    + by destruct before.
    + change (lit "video.gumlet.io/") with (lit "video.gumlet.io" ++ [slash]) in Hcond.
      rewrite <- (assoc_L (++)) in Hcond. by rewrite includes_app in Hcond.
Qed.

Lemma extractVideoId_nonempty previewUrl id :
  extractVideoId previewUrl = Some id → truthy (Some id) = true.
Proof.
  destruct previewUrl as [p|]; [|done]. unfold extractVideoId.
  destruct (_ && _); [|done].
  intros (? & ? & _ & (? & ? & _ & _ & _ & Hne & _)%gumletAt_sound)%gumletMatch_sound.
  by destruct id.
Qed.

End videoId.

(** ** The shot URL *)

Section shotUrl.
Context `{UnicodeCase}.
Import Js Extractor.

Lemma cleanHref_slash h : ∃ path, cleanHref h = slash :: path.
Proof.
  unfold cleanHref.
  set (c := if startsWith (lit "./") h then substringFrom 2 h else h).
  destruct (startsWith (lit "/") c) eqn:Hc; [|by eexists].
  apply startsWith_prefix in Hc as [k ->]. by exists k.
Qed.

Lemma cleanHref_fixed h : startsWith (lit "/") h = true → cleanHref h = h.
Proof.
  intros Hh. unfold cleanHref.
  assert (startsWith (lit "./") h = false) as ->.
  { apply startsWith_prefix in Hh as [k ->]. done. }
  by rewrite Hh.
Qed.

Lemma cleanHref_idempotent h : cleanHref (cleanHref h) = cleanHref h.
Proof. apply cleanHref_fixed. by destruct (cleanHref_slash h) as [path ->]. Qed.

Lemma find_first {A} (p : A → bool) (l : list A) :
  match find p l with
  | Some a => ∃ l1 l2, l = l1 ++ a :: l2 ∧ p a = true
                       ∧ Forall (λ x, p x = false) l1
  | None => Forall (λ x, p x = false) l
  end.
Proof.
  induction l as [|x l IH]; simpl; [constructor |].
  destruct (p x) eqn:Hx.
  - exists [], l. by repeat split.
  - destruct (find p l) as [a|].
    + destruct IH as (l1 & l2 & -> & ? & ?). exists (x :: l1), l2.
      repeat split; [done | by constructor].
    + by constructor.
Qed.

Lemma walk_first cfg videoId levels shotTitle :
  match (walk cfg videoId levels shotTitle).2 with
  | Some shotUrl =>
      ∃ below el above l1 a l2,
        levels = below ++ el :: above
        ∧ Forall (noShotLink cfg) below
        ∧ links el = l1 ++ a :: l2
        ∧ Forall (λ a', hrefOk cfg (href a') = false) l1
        ∧ hrefOk cfg (href a) = true
        ∧ shotUrl = linkUrl videoId (href a)
  | None => Forall (noShotLink cfg) levels
  end.
Proof.
  revert shotTitle. induction levels as [|el up IH]; intros shotTitle; simpl;
    [constructor |].
  unfold findFirst.
  pose proof (find_first (λ a, hrefOk cfg (href a)) (links el)) as Hf.
  destruct (find _ (links el)) as [a|]; simpl.
  - destruct Hf as (l1 & l2 & Hl & Hok & Hl1).
    exists [], el, up, l1, a, l2. by repeat split.
  - specialize (IH (scanTitle cfg el shotTitle)).
    destruct ((walk cfg videoId up (scanTitle cfg el shotTitle)).2) as [u|].
    + destruct IH as (below & el' & above & l1 & a & l2 & -> & ? & ?).
      exists (el :: below), el', above, l1, a, l2.
      split; [done | split; [by constructor | done]].
    + by constructor.
Qed.

(** X10 (which anchor): the permalink of a video is taken from the
    nearest element of its chain, the video first, that holds an anchor
    passing the test, among the first [maxDepth] elements only, and from
    the first such anchor of that element; no anchor further up is
    looked at, and none is used when no element within the bound holds
    one. *)
Theorem walk_nearest_anchor (cfg : Heuristics) (v : Video) (videoId : option jsstring) :
  match
    (walk cfg videoId (take (maxDepth cfg) (self v :: ancestors v)) None).2
  with
  | Some shotUrl =>
      ∃ depth el l1 a l2,
        depth < maxDepth cfg
        ∧ (self v :: ancestors v) !! depth = Some el
        ∧ Forall (noShotLink cfg) (take depth (self v :: ancestors v))
        ∧ links el = l1 ++ a :: l2
        ∧ Forall (λ a', hrefOk cfg (href a') = false) l1
        ∧ hrefOk cfg (href a) = true
        ∧ shotUrl = linkUrl videoId (href a)
  | None =>
      Forall (noShotLink cfg) (take (maxDepth cfg) (self v :: ancestors v))
  end.
Proof.
  pose proof (walk_first cfg videoId (take (maxDepth cfg) (self v :: ancestors v))
                None) as Hw.
  destruct ((walk _ _ _ _).2) as [u|]; [|done].
  destruct Hw as (below & el & above & l1 & a & l2 & Hlevels & Hbelow & Hrest).
  exists (length below), el, l1, a, l2.
  assert (take (maxDepth cfg) (self v :: ancestors v) !! length below = Some el)
    as Hlook.
  { rewrite Hlevels. by rewrite list_lookup_middle. }
  apply lookup_take_Some in Hlook as [Hlook Hlt].
  split; [done | split; [done | split; [|done]]].
  assert (take (length below) (self v :: ancestors v) = below) as ->; [|done].
  symmetry.
  transitivity (take (length below) (take (maxDepth cfg) (self v :: ancestors v))).
  { by rewrite Hlevels, take_app_length. }
  rewrite take_take. f_equal. lia.
Qed.

Lemma linkUrl_site videoId h :
  startsWith (lit "https://60fps.design/") (linkUrl videoId h) = true.
Proof.
  apply startsWith_prefix. unfold linkUrl.
  destruct (cleanHref_slash h) as [path ->].
  destruct (truthy videoId); by eexists.
Qed.

Lemma resolveShot_url cfg index v shotUrl :
  (resolveShot cfg index v).2 = Some shotUrl →
  startsWith (lit "https://60fps.design/") shotUrl = true
  ∧ match extractVideoId (resolvePreview v) with
    | Some videoId => ∃ path, shotUrl = site ++ slash :: path ++ lit "?video=" ++ videoId
    | None => ∃ a, hrefOk cfg (href a) = true ∧ shotUrl = site ++ cleanHref (href a)
    end.
Proof.
  unfold resolveShot.
  pose proof (walk_first cfg (extractVideoId (resolvePreview v))
                (take (maxDepth cfg) (self v :: ancestors v)) None) as Hw.
  destruct (walk _ _ _ _) as [t u]. simpl in Hw.
  destruct (extractVideoId (resolvePreview v)) as [id|] eqn:Hid.
  - pose proof (extractVideoId_nonempty _ _ Hid) as Htruthy.
    destruct id as [|c0 id0]; [done |]. clear Htruthy.
    destruct u as [u|].
    + destruct Hw as (below & el & above & l1 & a & l2 & _ & _ & _ & _ & _ & Hu).
      assert (truthy (Some u) = true) as Htu.
      { pose proof (linkUrl_site (Some (c0 :: id0)) (href a)) as Hsite.
        rewrite <- Hu in Hsite. by destruct u. }
      rewrite Htu. simpl. intros [= <-]. subst u.
      split; [apply linkUrl_site |].
      unfold linkUrl. simpl truthy. cbv iota.
      destruct (cleanHref_slash (href a)) as [path ->]. by exists path.
    + cbn [negb andb truthy].
      destruct (truthy t); cbn [snd default]; intros [= <-];
        (split; [by vm_compute |]).
      * by exists (lit "shots/" ++ slugify (default [] t)).
      * by exists (lit "shots/" ++ lit "motion-video-" ++ substringTo 8 (c0 :: id0)).
  - rewrite andb_false_r. simpl. intros ->.
    destruct Hw as (below & el & above & l1 & a & l2 & _ & _ & _ & _ & Hok & ->).
    split; [apply linkUrl_site |]. by exists a.
Qed.

(** X11 (shape of the shot URL): the url of a record starts with
    [https://60fps.design/]; when the preview URL yields a video id the
    url ends with [?video=] and that id, and otherwise it is the site
    followed by the normalised href of an anchor that passed the test;
    the preview is the resolved preview URL. *)
Theorem shot_url_shape (cfg : Heuristics) (index : nat) (v : Video) :
  match extractVideo cfg index v with
  | Some shot =>
      startsWith (lit "https://60fps.design/") (url shot) = true
      ∧ resolvePreview v = Some (preview shot)
      ∧ match extractVideoId (resolvePreview v) with
        | Some videoId =>
            ∃ path, url shot = site ++ slash :: path ++ lit "?video=" ++ videoId
        | None =>
            ∃ a, hrefOk cfg (href a) = true
                 ∧ url shot = site ++ cleanHref (href a)
        end
  | None => True
  end.
Proof.
  destruct (extractVideo cfg index v) as [shot|] eqn:Hs; [|done].
  apply extractVideo_Some in Hs as (_ & _ & Hu & Hp).
  apply resolveShot_url in Hu as [? ?]. done.
Qed.

End shotUrl.

(** ** More on the result list *)

Section results.
Import Js Extractor.

Lemma uniqueFrom_fixed (seenUrls : gset (list N)) (results : list Shot) :
  NoDup (url <$> results) →
  (∀ shot, shot ∈ results → url shot ∉ seenUrls) →
  uniqueFrom seenUrls results = results.
Proof.
  revert seenUrls. induction results as [|shot rest IH]; intros seenUrls; [done |].
  rewrite fmap_cons, NoDup_cons. intros [Hnot Hnd] Hseen. simpl.
  destruct (decide (url shot ∈ seenUrls)) as [Hin|_].
  - destruct (Hseen shot); [by left | done].
  - f_equal. apply IH; [done |].
    intros s Hs [Heq%elem_of_singleton|Hin]%elem_of_union.
    + apply Hnot. rewrite <- Heq. by apply list_elem_of_fmap_2.
    + apply (Hseen s); [by right | done].
Qed.

(** X12 (deduplication settles): a list without repeated url comes out
    of the deduplication unchanged, so deduplicating a second time
    changes nothing; the result is never longer than the list. *)
Theorem uniqueResults_idempotent (results : list Shot) :
  uniqueResults (uniqueResults results) = uniqueResults results
  ∧ (NoDup (url <$> results) ↔ uniqueResults results = results)
  ∧ length (uniqueResults results) ≤ length results.
Proof.
  destruct (uniqueFrom_spec ∅ results) as (Hnd & _ & Hsub & _).
  split; [|split].
  - apply uniqueFrom_fixed; [done |]. intros ? _. apply not_elem_of_empty.
  - split.
    + intros Hr. apply uniqueFrom_fixed; [done |]. intros ? _. apply not_elem_of_empty.
    + unfold uniqueResults. intros <-. exact Hnd.
  - by apply sublist_length.
Qed.

Lemma omap_imap_sorted {A B} (g : nat → A → option B) (l : list A) :
  ∃ indices,
    StronglySorted lt indices
    ∧ Forall2 (λ i y, ∃ x, l !! i = Some x ∧ g i x = Some y)
        indices (omap id (imap g l)).
Proof.
  revert g. induction l as [|x l IH]; intros g.
  - exists []. split; constructor.
  - rewrite imap_cons. destruct (IH (g ∘ S)) as (idx' & Hsorted & Hall).
    assert (StronglySorted lt (S <$> idx')) as Hsorted'.
    { eapply StronglySorted_fmap; [|done]. intros; lia. }
    assert (Forall2 (λ i y, ∃ x', (x :: l) !! i = Some x' ∧ g i x' = Some y)
              (S <$> idx') (omap id (imap (g ∘ S) l))) as Hall'.
    { apply Forall2_fmap_l. eapply Forall2_impl; [exact Hall |]. done. }
    cbn [omap list_omap].
    destruct (g 0 x) as [y|] eqn:Hy; cbn [id].
    + exists (0 :: (S <$> idx')). split.
      * constructor; [done |]. apply Forall_fmap, Forall_forall. intros; simpl; lia.
      * constructor; [by exists x | done].
    + by exists (S <$> idx').
Qed.

Lemma Forall2_sublist_r {A B} (R : A → B → Prop) (idx : list A) (l l' : list B) :
  Forall2 R idx l → l' `sublist_of` l →
  ∃ idx', idx' `sublist_of` idx ∧ Forall2 R idx' l'.
Proof.
  intros Hall. revert l'. induction Hall as [|i y idx l Hiy _ IH]; intros l' Hsub.
  - apply sublist_nil_r in Hsub as ->. exists []. split; constructor.
  - apply sublist_cons_r in Hsub as [Hsub|(l'' & -> & Hsub)].
    + destruct (IH _ Hsub) as (idx' & ? & ?). exists idx'.
      split; [by apply sublist_cons | done].
    + destruct (IH _ Hsub) as (idx' & ? & ?). exists (i :: idx').
      split; [by apply sublist_skip | by constructor].
Qed.

Lemma StronglySorted_sublist {A} (R : relation A) (l l' : list A) :
  StronglySorted R l → l' `sublist_of` l → StronglySorted R l'.
Proof.
  intros Hs. revert l'. induction Hs as [|x l Hs IH Hx]; intros l' Hsub.
  - apply sublist_nil_r in Hsub as ->. constructor.
  - apply sublist_cons_r in Hsub as [Hsub|(l'' & -> & Hsub)]; [by apply IH |].
    constructor; [by apply IH |].
    apply Forall_forall. intros y Hy.
    apply (proj1 (Forall_forall _ _) Hx). by eapply elem_of_sublist.
Qed.

End results.

Section order.
Context `{UnicodeCase}.
Import Js Extractor.

(** X13 (document order): the records of the extractor's output come
    from video elements at strictly increasing positions of the page,
    each record made from the element at its position. *)
Theorem extractShots_document_order (cfg : Heuristics) (videos : list Video) :
  ∃ indices,
    StronglySorted lt indices
    ∧ Forall2
        (λ index shot,
           ∃ v, videos !! index = Some v ∧ extractVideo cfg index v = Some shot)
        indices (extractShots cfg videos).
Proof.
  destruct (omap_imap_sorted (extractVideo cfg) videos) as (idx & Hsorted & Hall).
  destruct (uniqueFrom_spec ∅ (collect cfg videos)) as (_ & _ & Hsub & _).
  destruct (Forall2_sublist_r _ _ _ _ Hall Hsub) as (idx' & Hsub' & Hall').
  exists idx'. split; [by eapply StronglySorted_sublist | done].
Qed.

End order.

(** ** Placeholder titles *)

Section placeholders.
Context `{UnicodeCase}.
Import Js JsFacts Extractor.

Lemma digitsOfUint_digits d : Forall (λ c, isDigit c = true) (digitsOfUint d).
Proof. induction d; simpl; constructor; done. Qed.

Lemma decimal_nonempty n : decimal n ≠ [].
Proof.
  unfold decimal. destruct (Nat.to_uint n) eqn:E; simpl; try done.
  pose proof (Unsigned.of_to n) as Hn. rewrite E in Hn. simpl in Hn. by subst n.
Qed.

Lemma dropWhile_app_all p a c r :
  Forall (λ x, p x = true) a → p c = false →
  dropWhile p (a ++ c :: r) = c :: r.
Proof.
  intros Ha Hc. induction Ha as [|x a Hx _ IH]; simpl; [by rewrite Hc |].
  by rewrite Hx.
Qed.

Lemma stripTrailingNumber_numbered p x w ds :
  isWhiteSpace x = false → isWhiteSpace w = true →
  Forall (λ c, isDigit c = true) ds → ds ≠ [] →
  stripTrailingNumber ((p ++ [x]) ++ w :: ds) = p ++ [x].
Proof.
  intros Hx Hw Hds Hne. unfold stripTrailingNumber.
  rewrite reverse_app, reverse_cons, reverse_snoc, <- (assoc_L (++)). simpl.
  assert (isDigit w = false) as Hwd by (clear -Hw; char_solve).
  rewrite (dropWhile_app_all isDigit (reverse ds) w (x :: reverse p));
    [|by apply Forall_reverse | done].
  cbn [dropWhile]. rewrite Hw. cbn [dropWhile]. rewrite Hx.
  rewrite !bool_decide_eq_true_2.
  - by rewrite reverse_cons, reverse_involutive.
  - simpl. lia.
  - rewrite length_app, length_reverse. destruct ds; [done | simpl; lia].
Qed.

Lemma placeholder_formatted (word : jsstring) (x : N) (n : nat) (t : jsstring) :
  isWhiteSpace x = false → trim (word ++ [x]) = word ++ [x] →
  t = (word ++ [x]) ++ 32%N :: decimal n →
  trim (stripTrailingNumber t) = word ++ [x].
Proof.
  intros Hx Htrim ->.
  rewrite stripTrailingNumber_numbered;
    [done | done | done | apply digitsOfUint_digits | apply decimal_nonempty].
Qed.

(** X14 (placeholder titles): a record whose video has no title takes
    [Video n] when its url comes from an anchor and [Motion Video n]
    when it is made from the video id, [n] being the position of the
    video among all video elements of the page, counted from 1; in the
    formatted row the number is stripped: the title is [Video] or
    [Motion Video]. A title found by the walk is kept as it is. *)
Theorem placeholder_title (cfg : Heuristics) (index : nat) (v : Video)
    (nowIso : jsstring) :
  match extractVideo cfg index v with
  | Some shot =>
      let walked :=
        walk cfg (extractVideoId (resolvePreview v))
          (take (maxDepth cfg) (self v :: ancestors v)) None in
      if truthy walked.1 then title shot = walked.1
      else if truthy walked.2 then
        title shot = Some (lit "Video " ++ decimal (index + 1))
        ∧ JsonRow.title (Format.formatRow nowIso shot) = lit "Video"
      else
        title shot = Some (lit "Motion Video " ++ decimal (index + 1))
        ∧ JsonRow.title (Format.formatRow nowIso shot) = lit "Motion Video"
  | None => True
  end.
Proof.
  unfold extractVideo, resolveShot. cbv zeta.
  destruct (walk _ _ _ _) as [t u]. cbn [fst snd].
  destruct (truthy t) eqn:Ht.
  - destruct t as [[|c t]|]; try done.
    destruct (negb (truthy u) && _); cbn [default];
      repeat match goal with
        | |- context [match ?o with Some _ => _ | None => _ end] =>
            destruct o as [[|? ?]|]; cbn [truthy andb]; try done
        end.
  - assert (orElse t (lit "Video " ++ decimal (index + 1))
            = lit "Video " ++ decimal (index + 1)) as Hor
      by (by destruct t as [[|? ?]|]).
    destruct (truthy u) eqn:Hu; cbn [negb andb].
    + destruct u as [[|c u]|]; try done.
      destruct (resolvePreview v) as [[|d p]|]; cbn [truthy andb]; try done.
      rewrite Hor. split; [reflexivity |]. cbn [Format.formatRow JsonRow.title title orElse].
      change (orElse (Some (lit "Video " ++ decimal (index + 1))) ?d)
        with (lit "Video " ++ decimal (index + 1)).
      by apply (placeholder_formatted (lit "Vide") 111%N (index + 1)).
    + destruct (truthy (extractVideoId (resolvePreview v))); cbn [default].
      * destruct (resolvePreview v) as [[|d p]|]; cbn [truthy andb]; try done.
        split; [reflexivity |]. cbn [Format.formatRow JsonRow.title title orElse].
        change (orElse (Some (lit "Motion Video " ++ decimal (index + 1))) ?d)
          with (lit "Motion Video " ++ decimal (index + 1)).
        by apply (placeholder_formatted (lit "Motion Vide") 111%N (index + 1)).
      * destruct u as [[|c u]|]; try done;
          by destruct (resolvePreview v) as [[|d p]|].
Qed.

End placeholders.

(** ** The slug as a part of a URL *)

Section slugShape.
Context `{UnicodeCase}.
Import Js JsFacts Extractor.

Lemma noHyphenPair_includes s :
  noHyphenPair s = true → includes (lit "--") s = false.
Proof.
  replace (lit "--") with [hyphen; hyphen] by (by vm_compute).
  induction s as [|c s IH]; [done |].
  cbn [noHyphenPair includes]. intros [Hc Hs]%andb_true_iff.
  rewrite (IH Hs), orb_false_r.
  cbn [startsWith].
  destruct s as [|d s]; [by rewrite andb_false_r |].
  simpl in Hc. unfold isHyphen in Hc.
  rewrite (N.eqb_sym hyphen c), (N.eqb_sym hyphen d), andb_true_r.
  by apply negb_true_iff in Hc.
Qed.

Lemma endsWithHyphen_last s : endsWithHyphen s = false → last s ≠ Some hyphen.
Proof.
  induction s as [|c [|d s] IH]; [done | |].
  - simpl. intros Hc [= ->]. done.
  - intros Hs. rewrite last_cons_cons. by apply IH.
Qed.

(** X15 (the slug is safe in a URL): the slug made from a title holds
    only lower-case ASCII letters, digits and hyphens, no two hyphens in
    a row and none at its start or end, whatever the title. *)
Theorem slugify_url_safe (shotTitle : jsstring) :
  Forall (λ c, isLower c || isDigit c || isHyphen c = true) (slugify shotTitle)
  ∧ includes (lit "--") (slugify shotTitle) = false
  ∧ startsWith (lit "-") (slugify shotTitle) = false
  ∧ last (slugify shotTitle) ≠ Some hyphen.
Proof.
  destruct (slugify_normal shotTitle) as (Hchars & Hpairs & Hstart & Hend).
  split; [done | split; [by apply noHyphenPair_includes | split]].
  - destruct (slugify shotTitle) as [|c s]; [done |].
    simpl in Hstart. unfold isHyphen in Hstart.
    replace (lit "-") with [hyphen] by (by vm_compute). cbn [startsWith].
    by rewrite N.eqb_sym, Hstart.
  - by apply endsWithHyphen_last.
Qed.

End slugShape.

(** ** The formatted title against the title of the record *)

Section formatted.
Context `{UnicodeCase}.
Import Js JsFacts Extractor.







End formatted.

(** ** The argument of the limit *)

Section limitArg.
Import Js Cli.

Lemma findIndex_Some argv argIdx :
  findIndex argv = Some argIdx →
  ∃ before after, argv = before ++ (lit "--limit" :: after)
                  ∧ length before = argIdx ∧ lit "--limit" ∉ before.
Proof.
  revert argIdx. induction argv as [|a rest IH]; intros argIdx;
    cbn [findIndex]; [done |].
  unfold eqb. case_bool_decide as Ha.
  - intros [= <-]. exists [], rest. subst a. split; [done | split; [done |]].
    apply not_elem_of_nil.
  - destruct (findIndex rest) as [i|]; [|done]. simpl. intros [= <-].
    destruct (IH i eq_refl) as (before & after & -> & <- & Hnot).
    exists (a :: before), after. split; [done | split; [done |]].
    intros [?|?]%elem_of_cons; [by subst a | done].
Qed.

Lemma findIndex_first before after :
  lit "--limit" ∉ before →
  findIndex (before ++ (lit "--limit" :: after)) = Some (length before).
Proof.
  induction before as [|a before IH]; intros Hnot;
    cbn [app findIndex length]; unfold eqb.
  - by rewrite bool_decide_eq_true_2.
  - rewrite bool_decide_eq_false_2.
    + rewrite IH; [done |]. intros ?. apply Hnot. by right.
    + intros ->. apply Hnot. by left.
Qed.

(** X17 (which argument is the limit): the value read is the argument
    right after the first [--limit] of the command line, when there is
    one and it is not empty; a [--limit] at the end of the line, or one
    followed by an empty argument, gives none, also when a second
    [--limit] with a value follows. *)
Theorem limitArg_first (argv : list jsstring) (a : jsstring) :
  limitArg argv = Some a
  ↔ ∃ before after,
      argv = before ++ (lit "--limit" :: a :: after)
      ∧ (lit "--limit" ∉ before) ∧ a ≠ [].
Proof.
  unfold limitArg. split.
  - destruct (findIndex argv) as [i|] eqn:Hi; [|done].
    apply findIndex_Some in Hi as (before & after & -> & <- & Hnot).
    rewrite lookup_app_r by lia.
    replace (length before + 1 - length before) with 1 by lia.
    destruct after as [|x after]; [done |]. simpl.
    destruct x as [|c x]; [done |]. intros [= <-].
    by exists before, after.
  - intros (before & after & -> & Hnot & Hne).
    rewrite findIndex_first by done.
    rewrite lookup_app_r by lia.
    replace (length before + 1 - length before) with 1 by lia.
    simpl. by destruct a.
Qed.

End limitArg.

(** ** What every answer holds *)

Section answers.
Context `{UnicodeCase}.
Import Js Extractor.

Lemma fallbackSet_sound s : soundShots (fallbackSet s).
Proof.
  split.
  - destruct s; apply (bool_decide_unpack _); by vm_compute.
  - destruct s; repeat constructor; by vm_compute.
Qed.

Lemma extractShots_sound cfg videos : soundShots (extractShots cfg videos).
Proof.
  split.
  - unfold extractShots.
    by destruct (uniqueFrom_spec ∅ (collect cfg videos)) as (Hnd & _).
  - apply Forall_forall. intros shot (index & v & _ & Hs)%extractShots_elem.
    apply extractVideo_Some in Hs as (_ & Hp & Hu & _).
    by apply resolveShot_url in Hu as [Hsite _].
Qed.

Lemma run_sound s b shots : (run s b).1 = Returned shots → soundShots shots.
Proof.
  intros [->|[videos ->]]%run_returns;
    [apply fallbackSet_sound | apply extractShots_sound].
Qed.

Lemma formatRow_sound nowIso shots :
  soundShots shots → soundRows nowIso (Format.formatRow nowIso <$> shots).
Proof.
  intros [Hnd Hall]. split.
  - rewrite <- list_fmap_compose.
    by rewrite (list_fmap_ext (JsonRow.url ∘ Format.formatRow nowIso) url shots).
  - apply Forall_fmap. eapply Forall_impl; [exact Hall |].
    intros shot [? ?]. by repeat split.
Qed.

Lemma applyLimit_sound nowIso limit rows :
  soundRows nowIso rows → soundRows nowIso (Cli.applyLimit limit rows).
Proof.
  unfold Cli.applyLimit. destruct limit as [k|]; [|done].
  case_bool_decide; [|done]. intros [Hnd Hall]. split.
  - rewrite fmap_take. eapply sublist_NoDup; [done | apply sublist_take].
  - by apply Forall_take.
Qed.

(** X18 (what every answer holds): whatever the browser does, the
    records a scraper returns have pairwise different urls, each on
    [https://60fps.design/], and non-empty previews; the rows written by
    the command line wrapper and those sent by the HTTP handler keep
    this, carry the source [60fps.design] and all the same time stamp. *)
Theorem answers_sound `{NumberConversion} (b : Browser) (nowIso : jsstring) :
  (∀ s, match (run s b).1 with
        | Returned shots => soundShots shots
        | Thrown _ => True
        end)
  ∧ (∀ argv envLIMIT,
       match Cli.main argv envLIMIT b nowIso with
       | Cli.Stdout rows => soundRows nowIso rows
       | Cli.Failure _ => True
       end)
  ∧ (∀ req,
       match Http.body (Http.handler req b nowIso) with
       | Http.Rows rows => soundRows nowIso rows
       | _ => True
       end).
Proof.
  split; [|split].
  - intros s. destruct (run s b).1 as [shots|] eqn:Hr; [|done].
    by eapply run_sound.
  - intros argv envLIMIT. unfold Cli.main.
    pose proof (run_sound PrimaryScraper b) as Hr. cbn [run] in Hr.
    destruct (Primary.scrape60fps b NotLaunched).1 as [shots|]; [|done].
    by apply applyLimit_sound, formatRow_sound, Hr.
  - intros req. unfold Http.handler.
    destruct (String.eqb _ _); [done |].
    pose proof (run_sound ServerlessScraper b) as Hr. cbn [run] in Hr.
    destruct (Serverless.scrape60fps b NotLaunched).1 as [shots|]; [|done].
    by apply formatRow_sound, Hr.
Qed.

End answers.

(** ** The title the ancestor walk keeps *)

Section walkTitle.
Import Js Extractor.

Lemma find_existsb {A} (p : A → bool) l : existsb p l = bool_decide (is_Some (List.find p l)).
Proof.
  induction l as [|x l IH]; cbn [existsb List.find].
  - symmetry. apply bool_decide_eq_false_2. by intros [? ?].
  - destruct (p x); cbn [orb]; [|done].
    symmetry. by apply bool_decide_eq_true_2.
Qed.

Lemma headingOk_truthy cfg text : headingOk cfg text = true → truthy (Some text) = true.
Proof.
  unfold headingOk. by intros [[[? _]%andb_true_iff _]%andb_true_iff _]%andb_true_iff.
Qed.

Lemma scanTitle_heading cfg el t0 text :
  headingTitle cfg el = Some text → scanTitle cfg el t0 = Some text.
Proof.
  unfold headingTitle, scanTitle, findFirst. intros Hh. rewrite Hh.
  apply find_some in Hh as [_ Hok]. by rewrite (headingOk_truthy _ _ Hok).
Qed.

Lemma scanTitle_keeps cfg el t0 :
  truthy t0 = true → headingTitle cfg el = None → scanTitle cfg el t0 = t0.
Proof.
  unfold headingTitle, scanTitle, findFirst. intros Ht Hh. by rewrite Hh, Ht.
Qed.

Lemma adoptLinkTitle_keeps cfg a t0 : truthy t0 = true → adoptLinkTitle cfg a t0 = t0.
Proof. unfold adoptLinkTitle. by intros ->. Qed.

Lemma walk_keeps cfg videoId levels t0 :
  truthy t0 = true →
  Forall (λ el, headingTitle cfg el = None) (visited cfg levels) →
  (walk cfg videoId levels t0).1 = t0.
Proof.
  intros Ht. induction levels as [|el up IH]; [done |].
  cbn [visited walk]. rewrite find_existsb. unfold findFirst.
  destruct (List.find _ (links el)) as [a|] eqn:Ha.
  - rewrite bool_decide_eq_true_2 by done. intros [Hel _]%Forall_cons.
    simpl. by rewrite scanTitle_keeps, adoptLinkTitle_keeps.
  - rewrite bool_decide_eq_false_2 by (by intros [? ?]).
    intros [Hel Hup]%Forall_cons. rewrite scanTitle_keeps by done. by apply IH.
Qed.

(** X19 (a heading further out wins): the headings are scanned on every
    element visited, also when a title was already taken, so the title
    after the walk is the first qualifying heading of the LAST visited
    element that has one; it replaces a title taken from a heading or a
    text element nearer to the video, and the text of the accepted
    anchor does not replace it. *)
Theorem walk_outermost_heading (cfg : Heuristics) (videoId : option jsstring)
    (levels : list Element) (shotTitle : option jsstring)
    (nearer : list Element) (el : Element) (further : list Element) (text : jsstring) :
  visited cfg levels = nearer ++ el :: further →
  headingTitle cfg el = Some text →
  Forall (λ e, headingTitle cfg e = None) further →
  (walk cfg videoId levels shotTitle).1 = Some text.
Proof.
  revert shotTitle nearer.
  induction levels as [|e up IH]; intros t0 nearer Hv Hel Hfurther.
  { by destruct nearer. }
  assert (truthy (Some text) = true) as Htext.
  { apply find_some in Hel as [_ Hok]. by apply headingOk_truthy in Hok. }
  cbn [visited walk] in *. rewrite find_existsb in Hv. unfold findFirst.
  destruct (List.find _ (links e)) as [a|] eqn:Ha.
  - rewrite bool_decide_eq_true_2 in Hv by done.
    destruct nearer as [|n nearer]; [|by destruct nearer].
    injection Hv as -> _. simpl.
    by rewrite (scanTitle_heading _ _ _ _ Hel), adoptLinkTitle_keeps.
  - rewrite bool_decide_eq_false_2 in Hv by (by intros [? ?]).
    destruct nearer as [|n nearer].
    + injection Hv as -> Hup.
      rewrite (scanTitle_heading _ _ _ _ Hel).
      apply walk_keeps; [done | by rewrite Hup].
    + injection Hv as _ Hup. by eapply IH.
Qed.

End walkTitle.

Lemma walk_outermost_heading_witness :
  (Extractor.walk Primary.heuristics (Some (lit "abc12345"))
     (take 8 (self cardBelowHeading :: ancestors cardBelowHeading)) None).1
  = Some (lit "Featured this week")
  ∧ Extractor.scanTitle Primary.heuristics
      {| headings := []; textElements := [lit "Card Swipe to dismiss"]; links := [] |}
      None
    = Some (lit "Card Swipe to dismiss").
Proof.
  split; [|by vm_compute].
  apply (walk_outermost_heading Primary.heuristics (Some (lit "abc12345"))
           (take 8 (self cardBelowHeading :: ancestors cardBelowHeading)) None
           [noElement;
            {| headings := []; textElements := [lit "Card Swipe to dismiss"];
               links := [] |}]
           {| headings := [lit "Featured this week"]; textElements := [];
              links := [{| href := lit "/shots/card-swipe-dismiss";
                           linkText := lit "Open" |}] |}
           [] (lit "Featured this week")).
  - by vm_compute.
  - by vm_compute.
  - constructor.
Defined.

(** ** The title made from a URL *)

Section urlTitle.
Context `{UnicodeCase}.
Import Js Extractor Format.

Lemma split_site rest :
  split (lit "/shots/") (site ++ lit "/shots/" ++ rest)
  = site :: splitGo (lit "/shots/") 0 [] rest.
Proof. by vm_compute. Qed.

Lemma includes_no_head h sep a q :
  Forall (λ c, c ≠ h) a → includes (h :: sep) q = false →
  includes (h :: sep) (a ++ q) = false.
Proof.
  intros Ha Hq. induction Ha as [|c a Hc _ IH]; [done |].
  cbn [app includes startsWith]. rewrite IH, orb_false_r.
  apply andb_false_iff. left. by apply N.eqb_neq.
Qed.

Lemma stripQuery_none w : Forall (λ c, c ≠ questionMark) w → stripQuery w = w.
Proof.
  induction 1 as [|c w Hc _ IH]; [done |]. cbn [stripQuery].
  apply N.eqb_neq in Hc. unfold questionMark in Hc. by rewrite Hc, IH.
Qed.

Lemma stripQuery_cut w q :
  Forall (λ c, c ≠ questionMark) w → Forall (λ c, isLineTerminator c = false) q →
  stripQuery (w ++ questionMark :: q) = w.
Proof.
  intros Hw Hq. induction Hw as [|c w Hc _ IH].
  - cbn [app stripQuery]. unfold questionMark. rewrite N.eqb_refl.
    assert (forallb (λ d, negb (isLineTerminator d)) q = true) as ->; [|done].
    induction Hq as [|d q Hd _ IHq]; [done |].
    cbn [forallb]. by rewrite Hd, IHq.
  - cbn [app stripQuery]. apply N.eqb_neq in Hc. unfold questionMark in Hc.
    by rewrite Hc, IH.
Qed.

Lemma splitGo_word d acc w rest :
  Forall (λ c, c ≠ d) w →
  splitGo [d] 0 acc (w ++ d :: rest) = (reverse acc ++ w) :: splitGo [d] 0 [] rest.
Proof.
  intros Hw. revert acc. induction Hw as [|c w Hc _ IH]; intros acc.
  - cbn [app splitGo startsWith length]. rewrite N.eqb_refl. cbn [andb].
    by rewrite app_nil_r.
  - cbn [app splitGo startsWith]. rewrite (proj2 (N.eqb_neq d c)) by done.
    cbn [andb]. rewrite IH, reverse_cons. by rewrite <- (assoc_L (++)).
Qed.

Lemma splitGo_last d acc w :
  Forall (λ c, c ≠ d) w → splitGo [d] 0 acc w = [reverse acc ++ w].
Proof.
  intros Hw. apply splitGo_absent.
  rewrite <- (app_nil_r w). by apply includes_no_head.
Qed.

Lemma split_join d ws :
  ws ≠ [] → Forall (Forall (λ c, c ≠ d)) ws → split [d] (join [d] ws) = ws.
Proof.
  unfold split. intros Hne Hws. induction Hws as [|w ws Hw Hws IH]; [done |].
  destruct ws as [|w' ws].
  - cbn [join]. by rewrite splitGo_last.
  - change (join [d] (w :: w' :: ws)) with (w ++ d :: join [d] (w' :: ws)).
    rewrite splitGo_word by done. by rewrite IH.
Qed.

Lemma join_no_slash ws :
  Forall slugWord ws → Forall (λ c, c ≠ slash ∧ c ≠ questionMark) (join (lit "-") ws).
Proof.
  induction 1 as [|w ws Hw Hws IH]; [constructor |].
  assert (Forall (λ c, c ≠ slash ∧ c ≠ questionMark) w) as Hw'.
  { eapply Forall_impl; [exact Hw |]. by intros c (? & ? & ?). }
  destruct ws as [|w' ws]; [done |].
  change (join (lit "-") (w :: w' :: ws))
    with (w ++ hyphen :: join (lit "-") (w' :: ws)).
  apply Forall_app. split; [done |]. by constructor.
Qed.

(** X20 (the title of a shot URL): for a URL of the site whose slug is
    made of words joined by hyphens, with or without a query string,
    the title is made of the same words, each with its first code unit
    in upper case, joined by spaces; the query string leaves no trace. *)
Theorem extractTitleFromUrl_words (ws : list jsstring) (query : jsstring) :
  Forall slugWord ws → queryString query →
  extractTitleFromUrl (site ++ lit "/shots/" ++ join (lit "-") ws ++ query)
  = join (lit " ") (capitalize <$> ws).
Proof.
  intros Hws Hquery.
  pose proof (join_no_slash ws Hws) as Hslug.
  assert (Forall (λ c, c ≠ slash) (join (lit "-") ws)) as Hslash
    by (eapply Forall_impl; [exact Hslug |]; by intros c [? ?]).
  assert (Forall (λ c, c ≠ questionMark) (join (lit "-") ws)) as Hmark
    by (eapply Forall_impl; [exact Hslug |]; by intros c [? ?]).
  assert (split (lit "-") (join (lit "-") ws)
          = match ws with [] => [[]] | _ => ws end) as Hsplit.
  { destruct ws as [|w ws']; [done |].
    apply (split_join hyphen); [done |].
    eapply Forall_impl; [exact Hws |]. intros w0 Hw0.
    eapply Forall_impl; [exact Hw0 |]. by intros c (? & ? & ?). }
  assert (stripQuery (join (lit "-") ws ++ query) = join (lit "-") ws
          ∧ includes (lit "/shots/") (join (lit "-") ws ++ query) = false)
    as [Hstrip Hincl].
  { destruct Hquery as [->|(q & -> & Hq & Hterm)].
    - rewrite app_nil_r. split; [by apply stripQuery_none |].
      rewrite <- (app_nil_r (join _ _)).
      by apply (includes_no_head slash (lit "shots/")).
    - split; [by apply stripQuery_cut |].
      apply (includes_no_head slash (lit "shots/")); [done |].
      change (includes (lit "/shots/") (questionMark :: q) = false).
      cbn [includes]. rewrite Hq, orb_false_r. by vm_compute. }
  unfold extractTitleFromUrl.
  assert (truthy (Some (site ++ lit "/shots/" ++ join (lit "-") ws ++ query)) = true)
    as -> by done.
  cbn [negb]. rewrite split_site, (splitGo_absent _ _ _ Hincl).
  cbn [reverse app]. rewrite reverse_nil. cbn [app].
  rewrite Hstrip, Hsplit. destruct ws as [|w ws']; [|done].
  unfold capitalize, toUpperCase. done.
Qed.

End urlTitle.

Lemma extractTitleFromUrl_words_witness :
  @Format.extractTitleFromUrl asciiCase
    (lit "https://60fps.design/shots/card-swipe?video=abc12345")
  = lit "Card Swipe".
Proof.
  apply (@extractTitleFromUrl_words asciiCase [lit "card"; lit "swipe"]
           (lit "?video=abc12345")).
  - repeat constructor; by vm_compute.
  - right. exists (lit "video=abc12345"). split; [done |]. split; [by vm_compute |].
    repeat constructor; by vm_compute.
Defined.
